(** * ws_domain_export: the batch engine of the domain-status exporter

    A shallow embedding of [ws_domain_export.py]: [chunked], the request
    counter, the receive loop of [query_domains], [append_csv],
    [build_domains], the per-base loop of [main] and the three loaders,
    followed by their properties.

    Conventions.
    - Text is [string]; a Python [str] is its UTF-8 bytes, whose byte order
      is the code-point order Python compares by.
    - A received frame is represented by what [json.loads] makes of it, a
      sent frame and a CSV cell holding JSON text by the value that
      [json.dumps] is applied to.
    - Time is counted in ticks ([N]).  The clock only advances while the
      engine waits in [ws.recv()]; sending and bookkeeping take no time. *)

From Stdlib Require Import ZArith NArith List Lia SpecFloat Ascii String.
From stdpp Require Import base option list gmap sets strings pretty sorting.

Open Scope Z_scope.

#[local] Set Warnings "-register-all".

(** ** Python values and the built-ins the script uses *)

Module Py.

(** What [json.loads] builds.  A JSON object becomes a [dict], kept here
    as its items in insertion order (keys are pairwise distinct); a number
    becomes an [int] or a binary64 [float]. *)
Inductive json : Type :=
  | JNull
  | JBool (b : bool)
  | JInt (n : Z)
  | JFloat (f : spec_float)
  | JStr (s : string)
  | JArr (xs : list json)
  | JObj (items : list (string * json)).

(** The exceptions that can leave [query_domains], [append_csv] or the
    loop of [main]. *)
Inductive exn : Type :=
  | ConnectionClosed   (* websockets: the peer closed the connection *)
  | ConnectFailed      (* websockets.connect: no session *)
  | DecodeCrash        (* json.loads raised something other than JSONDecodeError *)
  | AttributeError     (* .get on a value that is not a dict *)
  | TypeError          (* unhashable dict key *)
  | ValueError         (* range() arg 3 must not be zero *)
  | KeyError           (* d[k] on an absent key *)
  | SystemExit         (* main: no base names, or no TLDs *)
  | NonStrKey.         (* a store with a non-str key reaches append_csv: outside
                          its declared type Dict[str, Dict], not followed further *)

Inductive outcome (A : Type) : Type :=
  | Ok (a : A)
  | Raise (e : exn).
Arguments Ok {A} a.
Arguments Raise {A} e.

#[global] Instance outcome_ret : MRet outcome := λ A a, Ok a.
#[global] Instance outcome_bind : MBind outcome := λ A B k m,
  match m with
  | Ok a => k a
  | Raise e => Raise e
  end.

(** [bool(v)]: the truth value Python gives a decoded JSON value. *)
Definition truthy (v : json) : bool :=
  match v with
  | JNull => false
  | JBool b => b
  | JInt n => negb (n =? 0)
  | JFloat (S754_zero _) => false
  | JFloat _ => true
  | JStr s => negb (String.eqb s "")
  | JArr xs => match xs with [] => false | _ => true end
  | JObj items => match items with [] => false | _ => true end
  end.

(** [d.get(k)], [None] when the key is absent; only a dict has [.get]. *)
Fixpoint items_get (items : list (string * json)) (k : string) : option json :=
  match items with
  | [] => None
  | (k', v) :: rest => if String.eqb k' k then Some v else items_get rest k
  end.

Definition py_get (d : json) (k : string) : outcome json :=
  match d with
  | JObj items => Ok (default JNull (items_get items k))
  | _ => Raise AttributeError
  end.

(** [a or b] *)
Definition py_or (a b : json) : json := if truthy a then a else b.

(** [hash(v)] succeeds: lists and dicts are unhashable. *)
Definition hashable (v : json) : bool :=
  match v with
  | JArr _ | JObj _ => false
  | _ => true
  end.

(** The exact value of a number: [man * 2^exp], or an infinity.  [bool]
    is a subtype of [int]; a NaN has no value and equals nothing. *)
Inductive numval : Type :=
  | Fin (man exp : Z)
  | Inf (negative : bool).

Definition num_val (v : json) : option numval :=
  match v with
  | JBool b => Some (Fin (if b then 1 else 0) 0)
  | JInt n => Some (Fin n 0)
  | JFloat (S754_zero _) => Some (Fin 0 0)
  | JFloat (S754_infinity s) => Some (Inf s)
  | JFloat S754_nan => None
  | JFloat (S754_finite s m e) => Some (Fin (if s then Z.neg m else Z.pos m) e)
  | _ => None
  end.

Definition numval_eqb (x y : numval) : bool :=
  match x, y with
  | Fin m1 e1, Fin m2 e2 =>
      let e := Z.min e1 e2 in
      (m1 * 2 ^ (e1 - e) =? m2 * 2 ^ (e2 - e))
  | Inf s1, Inf s2 => Bool.eqb s1 s2
  | _, _ => false
  end.

(** Whether a dict takes [a] and [b] for one key: they are the same
    object, or [a == b].  Strings are equal by content, numbers by exact
    value across [bool], [int] and [float].  A NaN equals nothing, itself
    included, but [json.loads] decodes every [NaN] to one and the same
    object ([json.decoder.NaN]), which a dict finds by identity.  With
    text on one side this is plain [==], as line 132 uses it. *)
Definition py_eq (a b : json) : bool :=
  match a, b with
  | JStr s, JStr t => String.eqb s t
  | JNull, JNull => true
  | JFloat S754_nan, JFloat S754_nan => true
  | _, _ =>
      match num_val a, num_val b with
      | Some x, Some y => numval_eqb x y
      | _, _ => false
      end
  end.

(** A [dict] whose keys are decoded JSON scalars: its items in insertion
    order. *)
Definition dict : Type := list (json * json).

(** [d[k] = v] on a hashable key: an existing entry keeps its key object
    and its place and takes the new value, a new key goes last. *)
Fixpoint dict_set (d : dict) (k v : json) : dict :=
  match d with
  | [] => [(k, v)]
  | (k', v') :: rest =>
      if py_eq k' k then (k', v) :: rest else (k', v') :: dict_set rest k v
  end.

Definition dict_setitem (d : dict) (k v : json) : outcome dict :=
  if hashable k then Ok (dict_set d k v) else Raise TypeError.

Definition dict_keys (d : dict) : list json := d.*1.

(** [d[k]] for a text key; [None] stands for KeyError. *)
Fixpoint dict_lookup (d : dict) (k : string) : option json :=
  match d with
  | [] => None
  | (k', v) :: rest => if py_eq k' (JStr k) then Some v else dict_lookup rest k
  end.

(** The text keys of a dict. *)
Definition str_keys (d : dict) : gset string :=
  list_to_set (omap (λ k, match k with JStr s => Some s | _ => None end)
                    (dict_keys d)).

(** [s.discard(x)] on a set of [str]: only an equal string is removed. *)
Definition set_discard (s : gset string) (x : json) : gset string :=
  match x with
  | JStr k => s ∖ {[ k ]}
  | _ => s
  end.

(** [range(0, stop, step)] for [step > 0], by its iteration. *)
Fixpoint range_from (fuel : nat) (i stop step : nat) : list nat :=
  match fuel with
  | O => []
  | S fuel' =>
      if (i <? stop)%nat then i :: range_from fuel' (i + step) stop step else []
  end.

(** [range(0, stop, step)]: zero step raises, a negative one is empty. *)
Definition py_range (stop : nat) (step : Z) : outcome (list nat) :=
  if step =? 0 then Raise ValueError
  else if step <? 0 then Ok []
  else Ok (range_from stop 0 stop (Z.to_nat step)).

(** [items[i:j]] for [0 <= i <= j]. *)
Definition slice {A} (items : list A) (i j : nat) : list A :=
  take (j - i) (drop i items).

(** [f"{n:06d}"] for [n >= 0]: the decimal numeral, padded on the left
    with zeros up to width 6 (a longer numeral is left as it is). *)
Fixpoint zeros (n : nat) : string :=
  match n with
  | O => ""
  | S n' => String "0" (zeros n')
  end.

Definition zfill (width : nat) (s : string) : string :=
  zeros (width - String.length s) +:+ s.

Definition format_06d (n : N) : string := zfill 6 (pretty n).

End Py.

Import Py.

(** ** The WebSocket session *)

(** A data frame, by what [json.loads(msg)] does with it. *)
Inductive message : Type :=
  | Decoded (data : json)   (* json.loads returns data *)
  | JSONDecodeError         (* json.loads raises json.JSONDecodeError *)
  | LoadsRaises.            (* json.loads raises anything else (RecursionError,
                               UnicodeDecodeError on a binary frame) *)

Inductive frame : Type :=
  | Data (msg : message)
  | Close.

(** A frame and the tick at which it reaches the client.  Frames are
    delivered in list order, none before its tick. *)
Record arrival : Type := Arrival { at_time : N; what : frame }.

Inductive received : Type :=
  | Message (msg : message)
  | TimeoutError
  | Closed.

(** [await asyncio.wait_for(ws.recv(), timeout=idle_timeout)] called at
    tick [now]: the next frame if it is there before [now + idle_timeout],
    and the tick at which the call comes back. *)
Definition in_time (idle_timeout : positive) (now : N) (a : arrival) : bool :=
  (at_time a <? now + Npos idle_timeout)%N.

Definition recv (idle_timeout : positive) (now : N) (inbox : list arrival)
  : received * N * list arrival :=
  match inbox with
  | [] => (TimeoutError, (now + Npos idle_timeout)%N, [])
  | a :: rest =>
      if in_time idle_timeout now a then
        match what a with
        | Data msg => (Message msg, N.max now (at_time a), rest)
        | Close => (Closed, N.max now (at_time a), rest)
        end
      else (TimeoutError, (now + Npos idle_timeout)%N, inbox)
  end.

(** The instant at which a receive started at [now] gives up. *)
Definition deadline (idle_timeout : positive) (now : N) : N :=
  (now + Npos idle_timeout)%N.

(** The peer's close frame has reached the client by [now]. *)
Definition closed_by (now : N) (inbox : list arrival) : bool :=
  existsb (λ a, match what a with
                | Close => (at_time a <=? now)%N
                | Data _ => false
                end) inbox.

(** [await ws.send(json.dumps(payload))]: the frame is appended to what
    the session has sent, unless the connection is closed. *)
Definition send (now : N) (inbox : list arrival) (outbox : list json)
    (payload : json) : outcome (list json) :=
  if closed_by now inbox then Raise ConnectionClosed
  else Ok (outbox ++ [payload]).

(** ** chunked (lines 77-79) *)

Definition chunked (items : list string) (size : Z)
  : outcome (list (list string)) :=
  match py_range (length items) size with
  | Raise e => Raise e
  | Ok starts => Ok ((λ i, slice items i (i + Z.to_nat size)) <$> starts)
  end.

(** ** query_domains (lines 95-141) *)

(** Lines 116-120: the request envelope. *)
Definition payload (req_id : string) (batch : list string) : json :=
  JObj [("type", JStr "domainStatus");
        ("reqID", JStr req_id);
        ("data", JObj [("domains", JArr (JStr <$> batch))])].

(** Lines 128-137: what one received message asks the loop to store;
    [None] is [continue]. *)
Definition response_of (msg : message) : outcome (option (json * json)) :=
  match msg with
  | LoadsRaises => Raise DecodeCrash
  | JSONDecodeError => Ok None
  | Decoded data =>
      ty ← py_get data "type";
      if negb (py_eq ty (JStr "domainStatusResponse")) then Ok None
      else
        d ← py_get data "data";
        let resp := py_or d (JObj []) in
        name ← py_get resp "name";
        if negb (truthy name) then Ok None
        else Ok (Some (name, resp))
  end.

(** Lines 128-139: one received message against the pending-set and the
    store.  [continue] leaves both as they are. *)
Definition on_message (msg : message) (pending : gset string) (results : dict)
  : outcome (gset string * dict) :=
  match response_of msg with
  | Raise e => Raise e
  | Ok None => Ok (pending, results)
  | Ok (Some (name, resp)) =>
      match dict_setitem results name resp with      (* line 138 *)
      | Raise e => Raise e
      | Ok results' => Ok (set_discard pending name, results')   (* line 139 *)
      end
  end.

(** A point of a run, for the statements that speak of every point: the
    number of the group in flight, its pending-set, the store and the
    clock. *)
Record snapshot : Type := Snapshot {
  at_group : N;
  pending_now : gset string;
  results_now : dict;
  clock : N
}.

(** How a loop was left: by falling through, or by an exception. *)
Inductive status : Type :=
  | Normal
  | Raised (e : exn).

Record loop_exit : Type := LoopExit {
  visited : list snapshot;
  pending_out : gset string;
  results_out : dict;
  now_out : N;
  inbox_out : list arrival;
  how : status
}.

Definition visiting (s : list snapshot) (x : loop_exit) : loop_exit :=
  LoopExit (s ++ visited x) (pending_out x) (results_out x) (now_out x)
           (inbox_out x) (how x).

(** Lines 123-139: the receive loop of one group.  A snapshot is taken at
    every test of [while pending] and, once a message is in, between
    lines 138 and 139. *)
Fixpoint recv_loop (idle_timeout : positive) (group : N)
    (pending : gset string) (results : dict) (now : N)
    (inbox : list arrival) {struct inbox} : loop_exit :=
  let here := Snapshot group pending results now in
  if decide (pending = ∅) then LoopExit [here] pending results now inbox Normal
  else
    match inbox with
    | [] =>
        (* asyncio.TimeoutError: break *)
        LoopExit [here] pending results (now + Npos idle_timeout)%N [] Normal
    | a :: rest =>
        if in_time idle_timeout now a then
          let now' := N.max now (at_time a) in
          match what a with
          | Close =>
              LoopExit [here] pending results now' rest (Raised ConnectionClosed)
          | Data msg =>
              match on_message msg pending results with
              | Raise e => LoopExit [here] pending results now' rest (Raised e)
              | Ok (pending', results') =>
                  visiting [here; Snapshot group pending results' now']
                    (recv_loop idle_timeout group pending' results' now' rest)
              end
          end
        else
          (* asyncio.TimeoutError: break *)
          LoopExit [here] pending results (now + Npos idle_timeout)%N inbox Normal
    end.

Record run : Type := Run {
  points : list snapshot;
  sent : list json;                   (* the requests, in the order sent *)
  left_pending : list (gset string);  (* per finished group, the pending-set
                                         its loop was left with *)
  final_results : dict;
  finished_at : N;
  unread : list arrival;
  ended : status
}.

Definition observing (s : list snapshot) (p : gset string) (x : run) : run :=
  Run (s ++ points x) (sent x) (p :: left_pending x) (final_results x)
      (finished_at x) (unread x) (ended x).

(** Lines 112-139: one request and one receive loop per group. *)
Fixpoint run_batches (idle_timeout : positive) (batches : list (list string))
    (req_counter : N) (results : dict) (now : N) (inbox : list arrival)
    (outbox : list json) {struct batches} : run :=
  match batches with
  | [] => Run [] outbox [] results now inbox Normal
  | batch :: more =>
      let req_id := format_06d req_counter in
      let req_counter' := (req_counter + 1)%N in
      let pending : gset string := list_to_set batch in
      match send now inbox outbox (payload req_id batch) with
      | Raise e => Run [] outbox [] results now inbox (Raised e)
      | Ok outbox' =>
          let group :=
            recv_loop idle_timeout req_counter pending results now inbox in
          match how group with
          | Raised e =>
              Run (visited group) outbox' [] (results_out group)
                  (now_out group) (inbox_out group) (Raised e)
          | Normal =>
              observing (visited group) (pending_out group)
                (run_batches idle_timeout more req_counter' (results_out group)
                   (now_out group) (inbox_out group) outbox')
          end
      end
  end.

(** [query_domains] on a session: [None] when [websockets.connect] fails.
    The value returned to the caller is [final_results] when [ended] is
    [Normal]; an exception leaves the function without one. *)
Definition query_domains (domains : list string) (batch_size : Z)
    (idle_timeout : positive) (session : option (list arrival)) : run :=
  match session with
  | None => Run [] [] [] [] 0%N [] (Raised ConnectFailed)
  | Some inbox =>
      match chunked domains batch_size with
      | Raise e => Run [] [] [] [] 0%N inbox (Raised e)
      | Ok batches => run_batches idle_timeout batches 1%N [] 0%N inbox []
      end
  end.

Definition returned (r : run) : outcome dict :=
  match ended r with
  | Normal => Ok (final_results r)
  | Raised e => Raise e
  end.

(** ** append_csv (lines 144-159) *)

(** A cell of a CSV row: a value that [csv.writer] formats itself, or the
    compact text [json.dumps(v, separators=(",", ":"))]. *)
Inductive cell : Type :=
  | Value (v : json)
  | CompactJson (v : json).

Definition row : Type := list cell.

Definition header : row :=
  [Value (JStr "domain"); Value (JStr "available");
   Value (JStr "lookupType"); Value (JStr "extra_json")].

(** The order [sorted] puts [str] keys in. *)
Definition str_le (s t : string) : Prop := String.leb s t = true.

#[global] Instance str_le_dec s t : Decision (str_le s t).
Proof. unfold str_le. apply _. Defined.

Definition sorted (keys : list string) : list string := merge_sort str_le keys.

(** The keys of a store as [str], if they all are. *)
Definition as_str (k : json) : option string :=
  match k with
  | JStr s => Some s
  | _ => None
  end.

Definition all_str (keys : list json) : option (list string) :=
  mapM as_str keys.

(** Line 145: the file is absent ([None]) or holds no row. *)
Definition needs_header (output : option (list row)) : bool :=
  match output with
  | None | Some [] => true
  | Some (_ :: _) => false
  end.

(** Lines 150-159: one row per key; the rows written before an exception
    stay in the file. *)
Fixpoint write_rows (results : dict) (keys : list string) (file : list row)
  : list row * status :=
  match keys with
  | [] => (file, Normal)
  | domain :: more =>
      match dict_lookup results domain with
      | None => (file, Raised KeyError)
      | Some resp =>
          match py_get resp "available", py_get resp "lookupType",
                py_get resp "extra" with
          | Ok available, Ok lookupType, Ok extra =>
              write_rows results more
                (file ++ [[Value (JStr domain); Value available;
                           Value lookupType; CompactJson extra]])
          | _, _, _ => (file, Raised AttributeError)
          end
      end
  end.

(** Lines 144-159, for a store whose keys are text, as its declared type
    [Dict[str, Dict]] says.  A store with a key that is not text is not
    followed: the code writes a store whose keys are all numbers and
    raises [TypeError] in [sorted] on one that mixes text and numbers,
    while here the call ends at [NonStrKey] once the header is written.
    The statements in which a store reaches [append_csv] therefore
    carry the hypothesis that its keys are text. *)
Definition append_csv (results : dict) (output : option (list row))
  : list row * status :=
  let file := default [] output ++ (if needs_header output then [header] else []) in
  match all_str (dict_keys results) with
  | None => (file, Raised NonStrKey)
  | Some keys => write_rows results (sorted keys) file
  end.

(** ** build_domains (lines 82-92) and the loop of main (lines 203-233) *)

Section Main.

(** [str.strip] and [str.lower]. *)
Variable strip lower : string → string.

Definition nonempty (s : string) : bool := negb (String.eqb s "").

Definition build_domains (bases tlds : list string) (use_tlds : bool)
  : list string :=
  if negb use_tlds then
    (λ b, lower (strip b)) <$> filter (λ b, nonempty (strip b) = true) bases
  else
    base ← bases;
    let base := lower (strip base) in
    if negb (nonempty base) then []
    else (λ tld, base +:+ "." +:+ lower tld) <$> tlds.

Record main_exit : Type := MainExit {
  runs : list run;              (* one per call of query_domains, in order *)
  existing_out : gset string;
  file_out : option (list row);
  main_ended : status
}.

Definition with_run (r : run) (x : main_exit) : main_exit :=
  MainExit (r :: runs x) (existing_out x) (file_out x) (main_ended x).

(** Lines 214-233.  [sessions] holds, for each call of [query_domains] in
    turn, what its connection will deliver; no session left counts as a
    failed connect.  The resume-set holds text keys, which is all that
    the tests of lines 219 and 222 look at; the loop is followed as long
    as the stores that come back have text keys (see [append_csv]). *)
Fixpoint main_loop (bases tlds : list string) (use_tlds : bool)
    (batch_size : Z) (idle_timeout : positive) (existing : gset string)
    (out : option (list row)) (sessions : list (option (list arrival)))
    {struct bases} : main_exit :=
  match bases with
  | [] => MainExit [] existing out Normal
  | base :: more =>
      let domains_all := build_domains [base] tlds use_tlds in
      match domains_all with
      | [] => main_loop more tlds use_tlds batch_size idle_timeout existing out sessions
      | _ :: _ =>
          if decide (list_to_set domains_all ⊆ existing) then
            main_loop more tlds use_tlds batch_size idle_timeout existing out sessions
          else
            let domains := filter (λ d, d ∉ existing) domains_all in
            let base_results :=
              query_domains domains batch_size idle_timeout
                            (mjoin (head sessions)) in
            match ended base_results with
            | Raised e => MainExit [base_results] existing out (Raised e)
            | Normal =>
                match append_csv (final_results base_results) out with
                | (file, Raised e) =>
                    MainExit [base_results] existing (Some file) (Raised e)
                | (file, Normal) =>
                    with_run base_results
                      (main_loop more tlds use_tlds batch_size idle_timeout
                         (existing ∪ str_keys (final_results base_results))
                         (Some file) (tail sessions))
                end
            end
      end
  end.

(** Lines 203-233, from the loaded inputs on: [bases] of load_bases,
    [tlds] of load_tlds and [existing] of load_existing_domains. *)
Definition main (bases tlds : list string) (no_tlds : bool) (batch_size : Z)
    (idle_timeout : positive) (existing : gset string)
    (out : option (list row)) (sessions : list (option (list arrival)))
  : main_exit :=
  match bases with
  | [] => MainExit [] existing out (Raised SystemExit)
  | _ :: _ =>
      let tlds := if no_tlds then [] else tlds in
      if negb no_tlds && match tlds with [] => true | _ => false end then
        MainExit [] existing out (Raised SystemExit)
      else
        main_loop bases tlds (negb no_tlds) batch_size idle_timeout existing
                  out sessions
  end.

End Main.

(** ** Vocabulary of the statements *)

(** The inbound envelope of interest:
    a dict whose [type] is [domainStatusResponse] and whose [data] is a
    dict with a non-empty text [name]. *)
Definition is_response (msg : message) (name : string) (record : json) : Prop :=
  ∃ items fields,
    msg = Decoded (JObj items) ∧
    items_get items "type" = Some (JStr "domainStatusResponse") ∧
    items_get items "data" = Some (JObj fields) ∧
    record = JObj fields ∧
    items_get fields "name" = Some (JStr name) ∧
    name ≠ "".

(** Every two neighbours of a list are related. *)
Fixpoint each_step {A} (R : relation A) (l : list A) : Prop :=
  match l with
  | x :: (y :: _) as rest => R x y ∧ each_step R rest
  | _ => True
  end.

(** A store after some statements of the loop: no key is gone or has
    moved, at most one entry is new and at most one has changed. *)
Definition grown (d d' : dict) : Prop :=
  dict_keys d `prefix_of` dict_keys d' ∧
  (length d' ≤ S (length d))%nat ∧
  ∃ i, ∀ j, j ≠ i → (j < length d)%nat → d' !! j = d !! j.

(** From one snapshot of a receive loop to the next. *)
Definition loop_step (s s' : snapshot) : Prop :=
  pending_now s' ⊆ pending_now s ∧
  (size (pending_now s ∖ pending_now s') ≤ 1)%nat ∧
  grown (results_now s) (results_now s').

(** The number a decimal numeral spells. *)
Definition digit_value (c : ascii) : N :=
  (N_of_ascii c - 48)%N.

Fixpoint numeral_value (s : string) : N :=
  match s with
  | "" => 0%N
  | String c rest =>
      (digit_value c * 10 ^ N.of_nat (String.length rest) + numeral_value rest)%N
  end.

(** The correlation id of a request as it went out (line 118). *)
Definition req_id_of (request : json) : option string :=
  match py_get request "reqID" with
  | Ok (JStr id) => Some id
  | _ => None
  end.

(** The names carried by the responses among some frames. *)
Definition names_in (inbox : list arrival) : list json :=
  omap (λ a, match what a with
             | Data msg =>
                 match response_of msg with
                 | Ok (Some (name, _)) => Some name
                 | _ => None
                 end
             | Close => None
             end) inbox.

(** A frame whose handling raises nothing: a data frame that decodes or
    fails with [JSONDecodeError], whose decoded value can be asked for its
    fields and whose name, if it has one, can be a dict key. *)
Definition raises_nothing (a : arrival) : bool :=
  match what a with
  | Close => false
  | Data msg =>
      match response_of msg with
      | Raise _ => false
      | Ok None => true
      | Ok (Some (name, _)) => hashable name
      end
  end.

(** A receive loop whose last point is [s] is left at tick [t]: at once
    when no key is pending, one idle timeout after [s] otherwise. *)
Definition left_at (idle_timeout : positive) (s : snapshot) (t : N) : Prop :=
  (pending_now s = ∅ ∧ t = clock s) ∨
  (pending_now s ≠ ∅ ∧ t = deadline idle_timeout (clock s)).

(** From one point of a run to the next: inside the loop of a group keys
    are pending and the next point comes before the idle timeout is over;
    between two groups the store is handed on as it is, and the next
    request goes out when the loop is left. *)
Definition run_step (idle_timeout : positive) (s s' : snapshot) : Prop :=
  (at_group s' = at_group s ∧ pending_now s ≠ ∅ ∧
   (clock s ≤ clock s' < deadline idle_timeout (clock s))%N) ∨
  (at_group s' = (at_group s + 1)%N ∧ results_now s' = results_now s ∧
   left_at idle_timeout s (clock s')).

(** The row of [domain] (lines 151-158): the key, the [available] and
    [lookupType] fields of its record and the compact JSON text of its
    [extra] field, a field that is absent reading as [None]. *)
Definition row_of (results : dict) (domain : string) : row :=
  let field name :=
    match dict_lookup results domain with
    | Some (JObj items) => default JNull (items_get items name)
    | _ => JNull
    end in
  [Value (JStr domain); Value (field "available");
   Value (field "lookupType"); CompactJson (field "extra")].

(** Frames that are each in time for the receive that reads them, when
    they are read one after the other from tick [now] on: a frame comes
    in before the idle timeout counted from the later of [now] and the
    arrival of the frame before it. *)
Fixpoint timely (idle_timeout : positive) (now : N) (frames : list arrival)
  : Prop :=
  match frames with
  | [] => True
  | a :: rest =>
      (at_time a < deadline idle_timeout now)%N ∧
      timely idle_timeout (N.max now (at_time a)) rest
  end.

(** The text names carried by the responses among some frames. *)
Definition response_names (frames : list arrival) : gset string :=
  list_to_set (omap as_str (names_in frames)).

(** [str.lower] on ASCII text. *)
Definition lower_char (c : ascii) : ascii :=
  let n := N_of_ascii c in
  if (65 <=? n)%N && (n <=? 90)%N then ascii_of_N (n + 32) else c.

Fixpoint ascii_lower (s : string) : string :=
  match s with
  | "" => ""
  | String c rest => String (lower_char c) (ascii_lower rest)
  end.

(** ** The invariants of the loops *)

(** The pending-set [p] and the store [r] of a group that began with the
    pending-set [p0], the store [r0] and the frames [i0] still to come. *)
Definition loop_inv (p0 : gset string) (r0 : dict) (i0 : list arrival)
    (p : gset string) (r : dict) : Prop :=
  p ⊆ p0 ∧
  p0 ⊆ p ∪ str_keys r ∧
  str_keys r0 ⊆ str_keys r ∧
  ∀ k, k ∈ dict_keys r → k ∈ dict_keys r0 ∨ k ∈ names_in i0.

(** A point [s] of a run over [batches] whose first request is numbered
    [c], begun with the store [results] and the frames [inbox] to come;
    [lp] lists the pending-sets the finished groups were left with. *)
Definition point_inv (batches : list (list string)) (c : N) (results : dict)
    (inbox : list arrival) (lp : list (gset string)) (s : snapshot) : Prop :=
  ∃ i batch,
    batches !! i = Some batch ∧
    at_group s = (c + N.of_nat i)%N ∧
    pending_now s ⊆ list_to_set batch ∧
    list_to_set batch ⊆ pending_now s ∪ str_keys (results_now s) ∧
    str_keys results ⊆ str_keys (results_now s) ∧
    (∀ k, k ∈ dict_keys (results_now s) →
          k ∈ dict_keys results ∨ k ∈ names_in inbox) ∧
    (∀ j b, (j < i)%nat → batches !! j = Some b →
       ∃ p, lp !! j = Some p ∧ p ⊆ list_to_set b ∧
            list_to_set b ⊆ p ∪ str_keys (results_now s)).

(** The end of such a run. *)
Definition final_inv (batches : list (list string)) (results : dict)
    (inbox : list arrival) (r : run) : Prop :=
  (length (left_pending r) ≤ length batches)%nat ∧
  (ended r = Normal → length (left_pending r) = length batches) ∧
  (∀ j b p, batches !! j = Some b → left_pending r !! j = Some p →
     p ⊆ list_to_set b ∧ list_to_set b ⊆ p ∪ str_keys (final_results r)) ∧
  str_keys results ⊆ str_keys (final_results r) ∧
  (∀ k, k ∈ dict_keys (final_results r) →
        k ∈ dict_keys results ∨ k ∈ names_in inbox) ∧
  unread r `suffix_of` inbox.

(** ** Further vocabulary *)

(** The keys a request asks for (line 119), as they went out. *)
Definition domains_of (request : json) : list json :=
  match py_get request "data" with
  | Ok d =>
      match py_get d "domains" with
      | Ok (JArr xs) => xs
      | _ => []
      end
  | Raise _ => []
  end.

(** The record a frame carries: the [data] of its decoded message. *)
Definition record_of (a : arrival) : json :=
  match what a with
  | Data (Decoded (JObj items)) => default JNull (items_get items "data")
  | _ => JNull
  end.

(** The frame [a] is a response for the key [d]. *)
Definition answers (d : string) (a : arrival) : Prop :=
  ∃ msg, what a = Data msg ∧ is_response msg d (record_of a).

(** No two keys of a dict are equal: [k == k'] is false for a key [k] and
    every key [k'] that comes after it. *)
Fixpoint distinct_keys (keys : list json) : Prop :=
  match keys with
  | [] => True
  | k :: rest => Forall (λ k', py_eq k k' = false) rest ∧ distinct_keys rest
  end.

(** An entry of the store as line 138 leaves it: the record is an object
    that carries a name, and its key is that name as it was first
    received (the same object, or one equal to it). *)
Definition named_record (entry : json * json) : Prop :=
  ∃ fields name,
    entry.2 = JObj fields ∧ items_get fields "name" = Some name ∧
    (entry.1 = name ∨ py_eq entry.1 name = true).

(** The store that a run hands to [append_csv] has text keys only, as
    its declared type [Dict[str, Dict]] says; a run that raised hands
    over nothing. *)
Definition text_keyed (r : run) : Prop :=
  ended r = Normal → is_Some (all_str (dict_keys (final_results r))).

(** ** The loaders (lines 43-74) *)

(** [s.startswith(p)] *)
Definition startswith (s p : string) : bool := String.prefix p s.

(** A row of [csv.DictReader]: the dict from the column names to the cells
    of one line, kept as its items; the cell of a column that the line is
    too short for reads [None]. *)
Definition csv_row : Type := list (string * option string).

Fixpoint row_get (r : csv_row) (column : string) : option string :=
  match r with
  | [] => None
  | (k, v) :: rest => if String.eqb k column then v else row_get rest column
  end.

(** [row.get(column) or ""] *)
Definition cell_or_empty (r : csv_row) (column : string) : string :=
  default "" (row_get r column).

Section Loaders.

Variable strip lower : string → string.

(** [load_bases] on the lines of the file, [path.read_text().splitlines()]. *)
Definition load_bases (lines : list string) : list string :=
  filter (λ line, nonempty line = true ∧ startswith line "#" = false)
         (strip <$> lines).

(** [load_tlds] on the rows of the file as [csv.DictReader] yields them. *)
Definition load_tlds (rows : list csv_row) : list string :=
  filter (λ tld, nonempty tld = true)
         ((λ r, lower (strip (cell_or_empty r "tld"))) <$> rows).

(** [load_existing_domains]; [None] is a file that is absent or empty. *)
Definition load_existing_domains (file : option (list csv_row)) : gset string :=
  match file with
  | None => ∅
  | Some rows =>
      list_to_set
        (filter (λ name, nonempty name = true)
                ((λ r, lower (strip (cell_or_empty r "domain"))) <$> rows))
  end.

End Loaders.

(** * Properties *)


Section Chunks.
Context {A : Type}.
Implicit Types (items : list A) (step fuel i : nat).

Lemma range_from_concat items step fuel i :
  (0 < step)%nat → (length items ≤ fuel + i)%nat →
  mjoin ((λ j, slice items j (j + step)) <$> range_from fuel i (length items) step)
  = drop i items.
Proof.
  intros Hstep. revert i. induction fuel as [|fuel IH]; intros i Hfuel; simpl.
  - by rewrite drop_ge by lia.
  - destruct (Nat.ltb_spec i (length items)) as [Hlt|Hge]; simpl.
    + rewrite IH by lia. unfold slice.
      replace (i + step - i)%nat with step by lia.
      rewrite <- drop_drop. apply take_drop.
    + by rewrite drop_ge by lia.
Qed.

Lemma range_from_length fuel i stop step :
  (0 < step)%nat → (stop ≤ fuel + i)%nat →
  length (range_from fuel i stop step) = ((stop - i + step - 1) / step)%nat.
Proof.
  intros Hstep. revert i. induction fuel as [|fuel IH]; intros i Hfuel; simpl.
  - replace (stop - i)%nat with 0%nat by lia. simpl.
    symmetry. apply Nat.div_small. lia.
  - destruct (Nat.ltb_spec i stop) as [Hlt|Hge]; simpl.
    + rewrite IH by lia.
      destruct (decide (stop ≤ i + step)%nat) as [Hle|Hgt].
      * replace (stop - (i + step))%nat with 0%nat by lia. simpl.
        rewrite Nat.div_small by lia.
        apply (Nat.div_unique _ _ 1 (stop - i - 1)%nat); lia.
      * replace (stop - i + step - 1)%nat
          with ((stop - (i + step) + step - 1) + 1 * step)%nat by lia.
        rewrite Nat.div_add by lia. lia.
    + replace (stop - i)%nat with 0%nat by lia. simpl.
      symmetry. apply Nat.div_small. lia.
Qed.

Lemma slice_length items i j : (length (slice items i j) ≤ j - i)%nat.
Proof. unfold slice. rewrite length_take. lia. Qed.

Lemma concat_disjoint (groups : list (list A)) i j g h x :
  NoDup (mjoin groups) → groups !! i = Some g → groups !! j = Some h →
  i ≠ j → x ∈ g → x ∈ h → False.
Proof.
  revert i j. induction groups as [|g0 groups IH]; intros i j Hnd Hi Hj Hij Hg Hh.
  - done.
  - simpl in Hnd. apply NoDup_app in Hnd as (Hnd0 & Hcross & Hnd').
    destruct i as [|i], j as [|j]; simplify_eq/=.
    + eapply Hcross; [done|]. apply list_elem_of_join. exists h.
      split; [done|]. by eapply list_elem_of_lookup_2.
    + eapply Hcross; [done|]. apply list_elem_of_join. exists g.
      split; [done|]. by eapply list_elem_of_lookup_2.
    + eapply (IH i j); eauto.
Qed.
End Chunks.

(** [chunked] for a positive size: the groups, their number and their
    concatenation. *)
Lemma chunked_join (items : list string) (size : Z) :
  0 < size →
  ∃ groups,
    chunked items size = Ok groups ∧
    groups = (λ i, slice items i (i + Z.to_nat size)) <$>
               range_from (length items) 0 (length items) (Z.to_nat size) ∧
    mjoin groups = items ∧
    length groups = ((length items + Z.to_nat size - 1) / Z.to_nat size)%nat.
Proof.
  intros Hsize. unfold chunked, py_range.
  destruct (Z.eqb_spec size 0) as [?|_]; [lia|].
  destruct (Z.ltb_spec size 0) as [?|_]; [lia|].
  eexists. split_and!; [reflexivity|reflexivity|..].
  - rewrite range_from_concat by lia. done.
  - rewrite length_fmap, range_from_length by lia. by rewrite Nat.sub_0_r.
Qed.

(** C7. For a positive size, [chunked] yields ceil(n / size) groups whose
    concatenation is the input list (contiguous groups in input order),
    each of at most [size] keys; a key is in the input exactly when it is
    in some group, and when the input has no repeated key no key is in two
    groups. *)
Theorem chunked_partitions (items : list string) (size : Z) :
  0 < size →
  ∃ groups,
    chunked items size = Ok groups ∧
    Z.of_nat (length groups) = (Z.of_nat (length items) + size - 1) / size ∧
    mjoin groups = items ∧
    Forall (λ g, Z.of_nat (length g) ≤ size) groups ∧
    (∀ k, k ∈ items ↔ ∃ g, g ∈ groups ∧ k ∈ g) ∧
    (NoDup items → ∀ i j g h k,
       groups !! i = Some g → groups !! j = Some h → i ≠ j →
       k ∈ g → k ∉ h).
Proof.
  intros Hsize.
  destruct (chunked_join items size Hsize) as (groups & Hok & Hgroups & Hjoin & Hlen).
  exists groups. split_and!; [done| |done|..].
  - rewrite Hlen.
    replace (length items + Z.to_nat size - 1)%nat
      with (Z.to_nat (Z.of_nat (length items) + size - 1)) by lia.
    rewrite <- (Z2Nat.id ((Z.of_nat (length items) + size - 1) / size)).
    2:{ apply Z.div_pos; lia. }
    f_equal. rewrite Z2Nat.inj_div by lia. done.
  - rewrite Hgroups. apply Forall_fmap, Forall_forall. intros i _. simpl.
    pose proof (slice_length items i (i + Z.to_nat size)). lia.
  - intros k. rewrite <- Hjoin at 1. rewrite list_elem_of_join. naive_solver.
  - intros Hnd i j g h k Hi Hj Hij Hg Hh.
    rewrite <- Hjoin in Hnd.
    exact (concat_disjoint _ i j g h k Hnd Hi Hj Hij Hg Hh).
Qed.

Lemma chunked_partitions_witness :
  ∃ groups,
    chunked ["a.com"; "b.com"; "c.com"] 2 = Ok groups ∧
    Z.of_nat (length groups) = (Z.of_nat 3 + 2 - 1) / 2 ∧
    mjoin groups = ["a.com"; "b.com"; "c.com"] ∧
    Forall (λ g, Z.of_nat (length g) ≤ 2) groups ∧
    (∀ k, k ∈ ["a.com"; "b.com"; "c.com"] ↔ ∃ g, g ∈ groups ∧ k ∈ g) ∧
    (NoDup ["a.com"; "b.com"; "c.com"] → ∀ i j g h k,
       groups !! i = Some g → groups !! j = Some h → i ≠ j →
       k ∈ g → k ∉ h).
Proof. apply (chunked_partitions ["a.com"; "b.com"; "c.com"] 2). lia. Defined.


(** ** Dictionaries *)

Lemma py_eq_str k s : py_eq k (JStr s) = true ↔ k = JStr s.
Proof.
  destruct k as [| | |f| | |]; simpl; try (split; [discriminate|congruence]).
  - destruct f; simpl; split; discriminate || congruence.
  - rewrite String.eqb_eq. split; congruence.
Qed.

Lemma py_eq_str_l s k : py_eq (JStr s) k = true ↔ k = JStr s.
Proof.
  destruct k as [| | |f| | |]; simpl; try (split; [discriminate|congruence]).
  rewrite String.eqb_eq. split; congruence.
Qed.

Lemma dict_keys_cons k v d : dict_keys ((k, v) :: d) = k :: dict_keys d.
Proof. reflexivity. Qed.

Lemma dict_set_keys d k v :
  dict_keys (dict_set d k v) = dict_keys d ∨
  dict_keys (dict_set d k v) = dict_keys d ++ [k].
Proof.
  induction d as [|[k' v'] d IH]; simpl.
  - by right.
  - destruct (py_eq k' k); [by left|].
    rewrite !dict_keys_cons. destruct IH as [->| ->]; [by left|by right].
Qed.

Lemma dict_set_length d k v :
  (length d ≤ length (dict_set d k v) ≤ S (length d))%nat.
Proof.
  induction d as [|[k' v'] d IH]; simpl; [lia|].
  destruct (py_eq k' k); simpl; lia.
Qed.

Lemma dict_set_one_entry d k v :
  ∃ i, ∀ j, j ≠ i → (j < length d)%nat → dict_set d k v !! j = d !! j.
Proof.
  induction d as [|[k' v'] d [i IH]]; simpl.
  - exists 0%nat. intros; lia.
  - destruct (py_eq k' k).
    + exists 0%nat. intros [|j] ? ?; [done|reflexivity].
    + exists (S i). intros [|j] ? ?; [done|]. simpl. apply IH; lia.
Qed.

Lemma dict_set_grown d k v : grown d (dict_set d k v).
Proof.
  split_and!.
  - destruct (dict_set_keys d k v) as [->| ->]; [done|]. by apply prefix_app_r.
  - apply dict_set_length.
  - apply dict_set_one_entry.
Qed.

Lemma grown_refl d : grown d d.
Proof. split_and!; [done|lia|]. by exists 0%nat. Qed.

Lemma str_keys_cons k v d :
  str_keys ((k, v) :: d) =
  match k with JStr s => {[ s ]} ∪ str_keys d | _ => str_keys d end.
Proof. unfold str_keys, dict_keys. by destruct k. Qed.

Lemma elem_of_str_keys s d : s ∈ str_keys d ↔ JStr s ∈ dict_keys d.
Proof.
  induction d as [|[k v] d IH].
  - unfold str_keys, dict_keys. simpl. set_solver.
  - rewrite str_keys_cons, dict_keys_cons, elem_of_cons, <- IH.
    destruct k; try set_solver.
Qed.

Lemma dict_set_elem_of_keys d k v x :
  x ∈ dict_keys (dict_set d k v) ↔ x ∈ dict_keys d ∨
    (x = k ∧ dict_keys (dict_set d k v) = dict_keys d ++ [k]).
Proof.
  destruct (dict_set_keys d k v) as [E|E]; rewrite E.
  - split; [by left|]. intros [?|[_ E']]; [done|].
    apply (f_equal length) in E'. rewrite length_app in E'. simpl in E'. lia.
  - rewrite elem_of_app, list_elem_of_singleton. naive_solver.
Qed.

Lemma str_keys_dict_set_str d s v :
  str_keys (dict_set d (JStr s) v) = str_keys d ∪ {[ s ]}.
Proof.
  induction d as [|[k' v'] d IH]; simpl.
  - rewrite str_keys_cons. unfold str_keys. simpl. set_solver.
  - destruct (py_eq k' (JStr s)) eqn:E.
    + apply py_eq_str in E as ->. rewrite !str_keys_cons. set_solver.
    + rewrite !str_keys_cons, IH. destruct k'; set_solver.
Qed.

Lemma str_keys_dict_set d k v : str_keys d ⊆ str_keys (dict_set d k v).
Proof.
  intros s. rewrite !elem_of_str_keys, dict_set_elem_of_keys. by left.
Qed.

Lemma dict_lookup_set_eq d s v : dict_lookup (dict_set d (JStr s) v) s = Some v.
Proof.
  induction d as [|[k' v'] d IH]; simpl.
  - by rewrite String.eqb_refl.
  - destruct (py_eq k' (JStr s)) eqn:E; simpl; by rewrite E.
Qed.

Lemma dict_lookup_set_ne d k v t :
  k ≠ JStr t → dict_lookup (dict_set d k v) t = dict_lookup d t.
Proof.
  intros Hne. induction d as [|[k' v'] d IH]; simpl.
  - destruct (py_eq k (JStr t)) eqn:E; [|done]. by apply py_eq_str in E.
  - destruct (py_eq k' k) eqn:E; simpl.
    + destruct (py_eq k' (JStr t)) eqn:E'; [|done].
      apply py_eq_str in E' as ->. by apply py_eq_str_l in E.
    + by rewrite IH.
Qed.

Lemma dict_lookup_is_Some d s : is_Some (dict_lookup d s) ↔ s ∈ str_keys d.
Proof.
  induction d as [|[k v] d IH]; simpl.
  - unfold str_keys. simpl. rewrite <- not_eq_None_Some. set_solver.
  - rewrite str_keys_cons. destruct (py_eq k (JStr s)) eqn:E.
    + apply py_eq_str in E as ->. split; [set_solver|eauto].
    + rewrite IH. destruct k; try set_solver.
      assert (s0 ≠ s) by (intros ->; simpl in E; by rewrite String.eqb_refl in E).
      set_solver.
Qed.

(** ** One message (lines 128-139) *)

Lemma response_of_is_response msg name record :
  is_response msg name record → response_of msg = Ok (Some (JStr name, record)).
Proof.
  intros (items & fields & -> & Hty & Hdata & -> & Hname & Hne).
  unfold response_of. simpl. rewrite Hty. simpl.
  rewrite Hdata. simpl. unfold py_or.
  assert (truthy (JObj fields) = true) as ->.
  { destruct fields; [discriminate|done]. }
  simpl. rewrite Hname. simpl.
  destruct (String.eqb_spec name ""); done.
Qed.

Lemma on_message_response msg name record pending results :
  is_response msg name record →
  on_message msg pending results
  = Ok (pending ∖ {[ name ]}, dict_set results (JStr name) record).
Proof.
  intros H. unfold on_message. by rewrite (response_of_is_response _ _ _ H).
Qed.

Lemma on_message_cases msg pending results pending' results' :
  on_message msg pending results = Ok (pending', results') →
  (pending' = pending ∧ results' = results) ∨
  ∃ name resp,
    response_of msg = Ok (Some (name, resp)) ∧ hashable name = true ∧
    pending' = set_discard pending name ∧ results' = dict_set results name resp.
Proof.
  unfold on_message, dict_setitem.
  destruct (response_of msg) as [[[name resp]|]|]; [| |discriminate].
  - destruct (hashable name) eqn:Hh; [|discriminate].
    intros [= <- <-]. right. by exists name, resp.
  - intros [= <- <-]. by left.
Qed.

Lemma set_discard_subseteq pending name : set_discard pending name ⊆ pending.
Proof. destruct name; set_solver. Qed.

Lemma set_discard_size pending name :
  (size (pending ∖ set_discard pending name) ≤ 1)%nat.
Proof.
  destruct name; simpl; try (rewrite difference_diag_L, size_empty; lia).
  transitivity (size ({[ s ]} : gset string)); [|by rewrite size_singleton].
  apply subseteq_size. intros x. rewrite !elem_of_difference.
  intros [? Hx]. destruct (decide (x = s)); set_solver.
Qed.


(** ** The receive loop (lines 123-139) *)

Section RecvLoop.
Variable idle_timeout : positive.
Variable group : N.

Abbreviation loop := (recv_loop idle_timeout group).
Abbreviation here p r t := (Snapshot group p r t).

(** The loop by cases, one per way through its body. *)
Lemma recv_loop_ind (P : gset string → dict → N → list arrival → loop_exit → Prop) :
  (∀ results now inbox,
     P ∅ results now inbox (LoopExit [here ∅ results now] ∅ results now inbox Normal)) →
  (∀ pending results now, pending ≠ ∅ →
     P pending results now []
       (LoopExit [here pending results now] pending results
                 (now + Npos idle_timeout)%N [] Normal)) →
  (∀ pending results now a rest, pending ≠ ∅ →
     in_time idle_timeout now a = false →
     P pending results now (a :: rest)
       (LoopExit [here pending results now] pending results
                 (now + Npos idle_timeout)%N (a :: rest) Normal)) →
  (∀ pending results now a rest, pending ≠ ∅ →
     in_time idle_timeout now a = true → what a = Close →
     P pending results now (a :: rest)
       (LoopExit [here pending results now] pending results
                 (N.max now (at_time a)) rest (Raised ConnectionClosed))) →
  (∀ pending results now a rest msg e, pending ≠ ∅ →
     in_time idle_timeout now a = true → what a = Data msg →
     on_message msg pending results = Raise e →
     P pending results now (a :: rest)
       (LoopExit [here pending results now] pending results
                 (N.max now (at_time a)) rest (Raised e))) →
  (∀ pending results now a rest msg pending' results', pending ≠ ∅ →
     in_time idle_timeout now a = true → what a = Data msg →
     on_message msg pending results = Ok (pending', results') →
     let now' := N.max now (at_time a) in
     P pending' results' now' rest (loop pending' results' now' rest) →
     P pending results now (a :: rest)
       (visiting [here pending results now; here pending results' now']
                 (loop pending' results' now' rest))) →
  ∀ pending results now inbox,
    P pending results now inbox (loop pending results now inbox).
Proof.
  intros Hdone Hsilent Hlate Hclose Hraise Hstep pending results now inbox.
  revert pending results now.
  induction inbox as [|a rest IH]; intros pending results now; simpl.
  - destruct (decide (pending = ∅)) as [->|Hne]; [apply Hdone|by apply Hsilent].
  - destruct (decide (pending = ∅)) as [->|Hne]; [apply Hdone|].
    destruct (in_time idle_timeout now a) eqn:Htime; [|by apply Hlate].
    destruct (what a) as [msg|] eqn:Hwhat; [|by apply Hclose].
    destruct (on_message msg pending results) as [[pending' results']|e] eqn:Hmsg.
    + eapply Hstep; eauto.
    + eapply Hraise; eauto.
Qed.

Lemma recv_loop_head pending results now inbox :
  ∃ tl, visited (loop pending results now inbox) = here pending results now :: tl.
Proof.
  destruct inbox as [|a rest]; simpl.
  - destruct (decide (pending = ∅)); eauto.
  - destruct (decide (pending = ∅)); [eauto|].
    destruct (in_time idle_timeout now a); [|eauto].
    destruct (what a); [|eauto].
    destruct (on_message msg pending results) as [[??]|]; simpl; eauto.
Qed.

Lemma on_message_loop_step msg pending results pending' results' now now' :
  on_message msg pending results = Ok (pending', results') →
  loop_step (here pending results now) (here pending results' now') ∧
  loop_step (here pending results' now') (here pending' results' now').
Proof.
  intros H. unfold loop_step; simpl.
  apply on_message_cases in H as [[-> ->]|(name & resp & _ & _ & -> & ->)].
  - rewrite difference_diag_L, size_empty. split_and!; auto using grown_refl; lia.
  - rewrite difference_diag_L, size_empty.
    split_and!; auto using grown_refl, dict_set_grown, set_discard_subseteq,
      set_discard_size; lia.
Qed.

End RecvLoop.

(** C10. Throughout the receive loop of a group the pending-set stays
    inside the set the loop started with (the keys of the group) and, from
    one point to the next, loses at most one key and gains none, while the
    store keeps every key where it is, gains at most one entry and has at
    most one entry changed. *)
Theorem pending_shrinks_results_grow
    (idle_timeout : positive) (group : N) (pending : gset string)
    (results : dict) (now : N) (inbox : list arrival) :
  let x := recv_loop idle_timeout group pending results now inbox in
  Forall (λ s, at_group s = group ∧ pending_now s ⊆ pending) (visited x) ∧
  each_step loop_step (visited x).
Proof.
  simpl. revert pending results now inbox.
  apply (recv_loop_ind idle_timeout group
    (λ pending results now inbox x,
       Forall (λ s, at_group s = group ∧ pending_now s ⊆ pending) (visited x) ∧
       each_step loop_step (visited x))); simpl;
    try (intros; split; [by repeat constructor|done]).
  intros pending results now a rest msg pending' results' Hne Htime Hwhat Hmsg
    [IHin IHstep].
  destruct (recv_loop_head idle_timeout group pending' results'
              (N.max now (at_time a)) rest) as [tl Htl].
  rewrite Htl in *.
  destruct (on_message_loop_step group _ _ _ _ _ now (N.max now (at_time a)) Hmsg)
    as [Hmid Hnext].
  assert (pending' ⊆ pending) as Hsub by apply Hnext.
  split.
  - do 2 (apply Forall_cons; split; [done|]).
    eapply Forall_impl; [exact IHin|]. simpl. intros s [? ?]. split; [done|].
    set_solver.
  - simpl. split_and!; done.
Qed.


(** ** What a receive loop keeps true *)

Lemma loop_inv_start p0 r0 i0 : loop_inv p0 r0 i0 p0 r0.
Proof. unfold loop_inv. split_and!; [set_solver..|]. auto. Qed.

Lemma elem_of_names_in a msg name resp inbox :
  a ∈ inbox → what a = Data msg → response_of msg = Ok (Some (name, resp)) →
  name ∈ names_in inbox.
Proof.
  intros Hin Hwhat Hresp. unfold names_in. apply list_elem_of_omap.
  exists a. split; [done|]. by rewrite Hwhat, Hresp.
Qed.

Lemma names_in_suffix inbox inbox' k :
  inbox `suffix_of` inbox' → k ∈ names_in inbox → k ∈ names_in inbox'.
Proof.
  intros [front ->]. unfold names_in. rewrite omap_app, elem_of_app. auto.
Qed.

Lemma loop_inv_on_message p0 r0 i0 a msg pending results pending' results' :
  a ∈ i0 → what a = Data msg →
  on_message msg pending results = Ok (pending', results') →
  loop_inv p0 r0 i0 pending results →
  loop_inv p0 r0 i0 pending results' ∧ loop_inv p0 r0 i0 pending' results'.
Proof.
  intros Hin Hwhat Hmsg (Hsub & Hcover & Hmono & Hnames).
  apply on_message_cases in Hmsg as [[-> ->]|(name & resp & Hresp & _ & -> & ->)].
  { by split. }
  pose proof (str_keys_dict_set results name resp) as Hkeep.
  assert (∀ k, k ∈ dict_keys (dict_set results name resp) →
               k ∈ dict_keys r0 ∨ k ∈ names_in i0) as Hnames'.
  { intros k [Hk|[-> _]]%dict_set_elem_of_keys; [auto|].
    right. eapply elem_of_names_in; eauto. }
  split; (split_and!; [| | |done]).
  - done.
  - set_solver.
  - set_solver.
  - pose proof (set_discard_subseteq pending name). set_solver.
  - destruct name as [| | | |s| |]; simpl.
    5:{ rewrite str_keys_dict_set_str. intros x Hx. apply Hcover in Hx.
        destruct (decide (x = s)); set_solver. }
    all: set_solver.
  - set_solver.
Qed.

Section RecvLoopInv.
Variable idle_timeout : positive.
Variable group : N.

Lemma recv_loop_inv pending results now inbox p0 r0 i0 :
  let x := recv_loop idle_timeout group pending results now inbox in
  loop_inv p0 r0 i0 pending results → inbox `suffix_of` i0 →
  Forall (λ s, at_group s = group ∧
               loop_inv p0 r0 i0 (pending_now s) (results_now s)) (visited x) ∧
  loop_inv p0 r0 i0 (pending_out x) (results_out x) ∧
  inbox_out x `suffix_of` inbox.
Proof.
  simpl. revert pending results now inbox.
  apply (recv_loop_ind idle_timeout group
    (λ pending results now inbox x,
       loop_inv p0 r0 i0 pending results → inbox `suffix_of` i0 →
       Forall (λ s, at_group s = group ∧
                    loop_inv p0 r0 i0 (pending_now s) (results_now s)) (visited x) ∧
       loop_inv p0 r0 i0 (pending_out x) (results_out x) ∧
       inbox_out x `suffix_of` inbox)); simpl;
    try (intros; split_and!;
         [by apply Forall_singleton|done|done || by apply suffix_cons_r]).
  intros pending results now a rest msg pending' results' Hne Htime Hwhat Hmsg
    IH Hinv Hsuf.
  assert (a ∈ i0) as Hin.
  { destruct Hsuf as [front ->]. set_solver. }
  destruct (loop_inv_on_message p0 r0 i0 a msg _ _ _ _ Hin Hwhat Hmsg Hinv)
    as [Hmid Hnext].
  destruct IH as (IHall & IHout & IHsuf); [done|by eapply suffix_cons_l|].
  split_and!; [|done|by apply suffix_cons_r].
  by do 2 (apply Forall_cons; split; [done|]).
Qed.

(** A loop left normally with keys still pending was left by the idle
    timeout; left with none, every key it started with is in the store. *)
Lemma recv_loop_complete pending results now inbox :
  let x := recv_loop idle_timeout group pending results now inbox in
  pending_out x = ∅ → pending ⊆ str_keys (results_out x).
Proof.
  simpl. intros Hout.
  destruct (recv_loop_inv pending results now inbox pending results inbox
              (loop_inv_start _ _ _)) as (_ & (_ & Hcover & _) & _); [done|].
  rewrite Hout in Hcover. set_solver.
Qed.

End RecvLoopInv.


(** ** What a run keeps true (lines 112-139) *)

Lemma run_batches_inv idle_timeout batches c results now inbox outbox :
  let r := run_batches idle_timeout batches c results now inbox outbox in
  Forall (point_inv batches c results inbox (left_pending r)) (points r) ∧
  final_inv batches results inbox r.
Proof.
  simpl. revert c results now inbox outbox.
  induction batches as [|batch more IH]; intros c results now inbox outbox; simpl.
  { split; [constructor|]. unfold final_inv; simpl.
    split_and!; try done. auto. }
  destruct (send now inbox outbox _) as [outbox'|e]; simpl.
  2:{ split; [constructor|]. unfold final_inv; simpl.
      split_and!; try done; try lia; auto. }
  pose proof (recv_loop_inv idle_timeout c (list_to_set batch) results now inbox
                (list_to_set batch) results inbox (loop_inv_start _ _ _)
                (reflexivity _)) as (Hall & Hout & Hsuf).
  set (group := recv_loop idle_timeout c (list_to_set batch) results now inbox) in *.
  assert (∀ lp, Forall (point_inv (batch :: more) c results inbox lp)
                       (visited group)) as Hgroup.
  { intros lp. eapply Forall_impl; [exact Hall|]. simpl.
    intros s [Hat (HA & HB & HC & HD)]. exists 0%nat, batch.
    split_and!; try done; [rewrite Hat; lia|]. intros j b ?; lia. }
  destruct Hout as (HoutA & HoutB & HoutC & HoutD).
  destruct (how group) as [|e] eqn:Hhow; simpl.
  2:{ split; [apply Hgroup|]. unfold final_inv; simpl.
      split_and!; try done; try lia; auto. }
  specialize (IH (c + 1)%N (results_out group) (now_out group) (inbox_out group)
                 outbox') as [IHpts (IHlen & IHnormal & IHleft & IHmono & IHnames & IHsuf)].
  set (r' := run_batches idle_timeout more (c + 1) (results_out group)
               (now_out group) (inbox_out group) outbox') in *.
  split.
  - apply Forall_app. split; [apply Hgroup|].
    eapply Forall_impl; [exact IHpts|]. simpl.
    intros s (i & b & Hb & Hat & HA & HB & HC & HD & HE).
    exists (S i), b. split_and!; try done.
    + rewrite Hat. lia.
    + set_solver.
    + intros k [Hk|Hk]%HD.
      * by apply HoutD.
      * right. by eapply names_in_suffix.
    + intros [|j] b' Hj Hb'; simplify_eq/=.
      * exists (pending_out group). split_and!; [done|done|set_solver].
      * apply HE; [lia|done].
  - unfold final_inv; simpl. split_and!.
    + lia.
    + intros Hn. by rewrite IHnormal.
    + intros [|j] b p Hb Hp; simplify_eq/=.
      * split; [done|]. set_solver.
      * by apply (IHleft j).
    + set_solver.
    + intros k [Hk|Hk]%IHnames.
      * by apply HoutD.
      * right. by eapply names_in_suffix.
    + by etransitivity.
Qed.


(** ** Correlation ids (lines 110-114) *)

Lemma string_length_app (s t : string) :
  String.length (s +:+ t) = (String.length s + String.length t)%nat.
Proof. induction s as [|c s IH]; simpl; [done|by rewrite IH]. Qed.

Lemma zeros_length n : String.length (zeros n) = n.
Proof. induction n as [|n IH]; simpl; [done|by rewrite IH]. Qed.

Lemma zfill_length width s :
  String.length (zfill width s) = (width `max` String.length s)%nat.
Proof. unfold zfill. rewrite string_length_app, zeros_length. lia. Qed.

Lemma numeral_value_zeros n s :
  numeral_value (zeros n +:+ s) = numeral_value s.
Proof. induction n as [|n IH]; simpl; [done|]. rewrite IH. by compute. Qed.

Lemma digit_value_char (d : N) :
  (d < 10)%N → digit_value (pretty_N_char d) = d.
Proof.
  intros Hd.
  assert (d = 0 ∨ d = 1 ∨ d = 2 ∨ d = 3 ∨ d = 4 ∨ d = 5 ∨ d = 6 ∨ d = 7
          ∨ d = 8 ∨ d = 9)%N as Hcases by lia.
  repeat destruct Hcases as [->|Hcases]; try reflexivity. by subst.
Qed.

Lemma numeral_value_go (x : N) (s : string) :
  numeral_value (pretty_N_go x s)
  = (x * 10 ^ N.of_nat (String.length s) + numeral_value s)%N.
Proof.
  revert s. induction (N.lt_wf_0 x) as [x _ IH]; intros s.
  destruct (decide (x = 0%N)) as [->|Hx].
  - rewrite pretty_N_go_0. lia.
  - rewrite pretty_N_go_step by lia.
    rewrite IH by (apply N.div_lt; lia). simpl String.length. simpl numeral_value.
    rewrite digit_value_char by (apply N.mod_lt; lia).
    rewrite Nat2N.inj_succ, N.pow_succ_r'.
    pose proof (N.div_mod x 10 ltac:(lia)). nia.
Qed.

Lemma numeral_value_pretty (n : N) : numeral_value (pretty n) = n.
Proof.
  unfold pretty, pretty_N. destruct (decide (n = 0%N)) as [->|Hn]; [done|].
  rewrite numeral_value_go. simpl. lia.
Qed.

Lemma numeral_value_format (n : N) : numeral_value (format_06d n) = n.
Proof. unfold format_06d, zfill. by rewrite numeral_value_zeros, numeral_value_pretty. Qed.

Lemma format_06d_inj : Inj (=) (=) format_06d.
Proof.
  intros m n H. apply (f_equal numeral_value) in H.
  by rewrite !numeral_value_format in H.
Qed.

Lemma pretty_go_length_le (k : nat) (x : N) (s : string) :
  (x < 10 ^ N.of_nat k)%N →
  (String.length (pretty_N_go x s) ≤ String.length s + k)%nat.
Proof.
  revert x s. induction k as [|k IH]; intros x s Hx.
  - assert (x = 0%N) as -> by (simpl in Hx; lia). rewrite pretty_N_go_0. lia.
  - destruct (decide (x = 0%N)) as [->|Hne]; [rewrite pretty_N_go_0; lia|].
    rewrite pretty_N_go_step by lia.
    etransitivity; [apply IH|simpl; lia].
    rewrite Nat2N.inj_succ, N.pow_succ_r' in Hx.
    apply N.Div0.div_lt_upper_bound. lia.
Qed.

Lemma pretty_go_length_ge (k : nat) (x : N) (s : string) :
  (10 ^ N.of_nat k ≤ x)%N →
  (String.length s + S k ≤ String.length (pretty_N_go x s))%nat.
Proof.
  revert x s. induction k as [|k IH]; intros x s Hx.
  - simpl in Hx. rewrite pretty_N_go_step by lia.
    assert (∀ y t, String.length t ≤ String.length (pretty_N_go y t))%nat as Hmono.
    { intros y. induction (N.lt_wf_0 y) as [y _ IHy]; intros t.
      destruct (decide (y = 0%N)) as [->|Hy]; [by rewrite pretty_N_go_0|].
      rewrite pretty_N_go_step by lia.
      etransitivity; [|apply IHy, N.div_lt; lia]. simpl. lia. }
    etransitivity; [|apply Hmono]. simpl. lia.
  - assert (0 < x)%N.
    { pose proof (N.pow_nonzero 10 (N.of_nat (S k))). lia. }
    rewrite pretty_N_go_step by lia.
    etransitivity; [|apply IH].
    + simpl. lia.
    + rewrite Nat2N.inj_succ, N.pow_succ_r' in Hx.
      apply N.div_le_lower_bound; lia.
Qed.

Lemma format_06d_length_small (n : N) :
  (n < 1000000)%N → String.length (format_06d n) = 6%nat.
Proof.
  intros Hn. unfold format_06d. rewrite zfill_length.
  enough (String.length (pretty n) ≤ 6)%nat by lia.
  unfold pretty, pretty_N. destruct (decide (n = 0%N)); [simpl; lia|].
  apply (pretty_go_length_le 6 n ""). simpl. lia.
Qed.

Lemma format_06d_length_large (n : N) :
  (1000000 ≤ n)%N → (6 < String.length (format_06d n))%nat.
Proof.
  intros Hn. unfold format_06d. rewrite zfill_length.
  enough (7 ≤ String.length (pretty n))%nat by lia.
  unfold pretty, pretty_N. destruct (decide (n = 0%N)); [lia|].
  apply (pretty_go_length_ge 6 n ""). simpl. lia.
Qed.


(** The requests of a run: one per group reached, numbered from the
    counter on, in order. *)
Lemma run_batches_sent idle_timeout batches c results now inbox outbox :
  let r := run_batches idle_timeout batches c results now inbox outbox in
  ∃ k, (k ≤ length batches)%nat ∧
       sent r = outbox ++
                imap (λ i batch, payload (format_06d (c + N.of_nat i)) batch)
                     (take k batches) ∧
       (ended r = Normal → k = length batches).
Proof.
  simpl. revert c results now inbox outbox.
  induction batches as [|batch more IH]; intros c results now inbox outbox; simpl.
  { exists 0%nat. by rewrite app_nil_r. }
  unfold send. destruct (closed_by now inbox); simpl.
  { exists 0%nat. split_and!; [lia|by rewrite app_nil_r|done]. }
  set (group := recv_loop idle_timeout c (list_to_set batch) results now inbox).
  assert (∀ k, outbox ++ payload (format_06d c) batch ::
                 imap (λ i b, payload (format_06d (c + 1 + N.of_nat i)) b)
                      (take k more)
               = outbox ++
                 imap (λ i b, payload (format_06d (c + N.of_nat i)) b)
                      (take (S k) (batch :: more))) as Hshift.
  { intros k. rewrite firstn_cons, imap_cons, N.add_0_r. do 2 f_equal.
    apply imap_ext. intros i b _. simpl. do 2 f_equal. lia. }
  destruct (how group) as [|e]; simpl.
  - destruct (IH (c + 1)%N (results_out group) (now_out group) (inbox_out group)
                (outbox ++ [payload (format_06d c) batch]))
      as (k & Hk & Hsent & Hnormal).
    exists (S k). split_and!; [lia| |by intros ->%Hnormal].
    rewrite Hsent, <- app_assoc. simpl. apply Hshift.
  - exists 1%nat. split_and!; [lia| |done].
    rewrite <- (Hshift 0%nat). by rewrite take_0.
Qed.

Lemma req_id_of_payload id batch : req_id_of (payload id batch) = Some id.
Proof. reflexivity. Qed.

Lemma query_domains_sent domains batch_size idle_timeout session :
  let r := query_domains domains batch_size idle_timeout session in
  ∃ batches,
    sent r = imap (λ i batch, payload (format_06d (N.of_nat (S i))) batch) batches ∧
    (ended r = Normal → chunked domains batch_size = Ok batches).
Proof.
  simpl. unfold query_domains. destruct session as [inbox|]; simpl.
  2:{ by exists []. }
  destruct (chunked domains batch_size) as [batches|e]; simpl.
  2:{ by exists []. }
  destruct (run_batches_sent idle_timeout batches 1 [] 0 inbox [])
    as (k & Hk & Hsent & Hnormal).
  exists (take k batches). split.
  - rewrite Hsent. simpl. apply imap_ext. intros i b _. do 2 f_equal. lia.
  - intros ->%Hnormal. by rewrite take_ge.
Qed.

Lemma req_ids_of_requests (batches : list (list string)) :
  omap req_id_of
    (imap (λ i batch, payload (format_06d (N.of_nat (S i))) batch) batches)
  = (λ i, format_06d (N.of_nat (S i))) <$> seq 0 (length batches).
Proof.
  rewrite <- imap_seq_0. generalize S. intros f.
  revert f. induction batches as [|b batches IH]; intros f; [done|].
  rewrite !imap_cons. simpl. f_equal. apply IH.
Qed.

(** A session on which nothing ever arrives: every group is sent and
    left by the idle timeout. *)
Lemma run_batches_silent idle_timeout batches c results now outbox :
  ended (run_batches idle_timeout batches c results now [] outbox) = Normal.
Proof.
  revert c results now outbox.
  induction batches as [|batch more IH]; intros c results now outbox; simpl; [done|].
  destruct (decide (list_to_set batch = (∅ : gset string))); simpl; apply IH.
Qed.

(** C5, amended. The correlation ids of the requests of one run are, in
    the order sent, the numerals of 1, 2, 3, ... padded with zeros to six
    digits: each request carries one, no two are equal, the id of request
    [i + 1] spells the number [i + 1], has exactly six characters while
    that number is below 1,000,000 and more than six from there on. *)
Theorem correlation_ids (domains : list string) (batch_size : Z)
    (idle_timeout : positive) (session : option (list arrival)) :
  let r := query_domains domains batch_size idle_timeout session in
  let ids := omap req_id_of (sent r) in
  length ids = length (sent r) ∧
  NoDup ids ∧
  ∀ i id, ids !! i = Some id →
    id = format_06d (N.of_nat (S i)) ∧
    numeral_value id = N.of_nat (S i) ∧
    ((N.of_nat (S i) < 1000000)%N → String.length id = 6%nat) ∧
    ((1000000 ≤ N.of_nat (S i))%N → (6 < String.length id)%nat).
Proof.
  simpl.
  destruct (query_domains_sent domains batch_size idle_timeout session)
    as (batches & -> & _).
  rewrite req_ids_of_requests.
  split_and!.
  - by rewrite length_fmap, length_seq, length_imap.
  - apply NoDup_fmap_2; [|apply NoDup_seq].
    intros i j H. apply format_06d_inj in H. lia.
  - intros i id Hid. rewrite list_lookup_fmap in Hid.
    destruct (seq 0 (length batches) !! i) as [j|] eqn:Hj; [|done].
    apply lookup_seq in Hj as [-> _]. simpl in Hid. injection Hid as <-.
    split_and!; [done|apply numeral_value_format|..]; intros Hi.
    + by apply format_06d_length_small.
    + by apply format_06d_length_large.
Qed.

Lemma correlation_ids_witness :
  let r := query_domains ["a.com"; "b.com"; "c.com"] 2 5 (Some []) in
  omap req_id_of (sent r) !! 1%nat = Some "000002" ∧
  numeral_value "000002" = 2%N ∧
  String.length "000002" = 6%nat.
Proof.
  destruct (correlation_ids ["a.com"; "b.com"; "c.com"] 2 5 (Some []))
    as (_ & _ & H).
  destruct (H 1%nat "000002" eq_refl) as (_ & Hvalue & Hlength & _).
  split; [reflexivity|]. split; [exact Hvalue|]. apply Hlength. lia.
Defined.

(** C5 as stated fails once a run has a million groups: on a session
    where nothing arrives, a million keys sent one per group, the id of
    the 1,000,000th request is the seven characters 1000000. *)
Lemma millionth_correlation_id :
  let domains := (λ i : nat, "x" +:+ pretty i +:+ ".com") <$> seq 0 (N.to_nat 1000000) in
  let r := query_domains domains 1 1 (Some []) in
  omap req_id_of (sent r) !! N.to_nat 999999 = Some "1000000" ∧
  String.length "1000000" ≠ 6%nat.
Proof.
  intros domains r. split; [|done].
  destruct (query_domains_sent domains 1 1 (Some [])) as (batches & Hsent & Hok).
  fold r in Hsent, Hok.
  destruct (chunked_join domains 1 ltac:(lia)) as (groups & Hgroups & _ & _ & Hlen).
  assert (ended r = Normal) as Hnormal.
  { unfold r, query_domains. rewrite Hgroups. apply run_batches_silent. }
  specialize (Hok Hnormal).
  rewrite Hok in Hgroups. injection Hgroups as <-.
  assert (length batches = N.to_nat 1000000) as Hn.
  { rewrite Hlen. unfold domains. rewrite length_fmap, length_seq.
    change (Z.to_nat 1) with 1%nat. rewrite Nat.div_1_r. lia. }
  rewrite Hsent, req_ids_of_requests, list_lookup_fmap, Hn.
  rewrite lookup_seq_lt by lia.
  rewrite Nat.add_0_l.
  change (Some (format_06d (N.of_nat (S (N.to_nat 999999)))) = Some "1000000").
  replace (N.of_nat (S (N.to_nat 999999))) with 1000000%N by lia.
  vm_compute. reflexivity.
Qed.

(** ** The frames a run reads *)

Lemma names_in_app (l1 l2 : list arrival) :
  names_in (l1 ++ l2) = names_in l1 ++ names_in l2.
Proof. unfold names_in. apply omap_app. Qed.

(** The frames a receive loop reads, and where the keys of the store come
    from: the store the loop began with, or a response among those
    frames. *)
Lemma recv_loop_read idle_timeout group pending results now inbox :
  let x := recv_loop idle_timeout group pending results now inbox in
  ∃ read,
    inbox = read ++ inbox_out x ∧
    Forall (λ s, ∀ k, k ∈ dict_keys (results_now s) →
                      k ∈ dict_keys results ∨ k ∈ names_in read) (visited x) ∧
    (∀ k, k ∈ dict_keys (results_out x) →
          k ∈ dict_keys results ∨ k ∈ names_in read).
Proof.
  simpl. revert pending results now inbox.
  apply (recv_loop_ind idle_timeout group
    (λ pending results now inbox x,
       ∃ read,
         inbox = read ++ inbox_out x ∧
         Forall (λ s, ∀ k, k ∈ dict_keys (results_now s) →
                           k ∈ dict_keys results ∨ k ∈ names_in read) (visited x) ∧
         (∀ k, k ∈ dict_keys (results_out x) →
               k ∈ dict_keys results ∨ k ∈ names_in read))); simpl.
  - intros results now inbox. exists []. split_and!; [done| |by left].
    apply Forall_singleton. by left.
  - intros pending results now _. exists []. split_and!; [done| |by left].
    apply Forall_singleton. by left.
  - intros pending results now a rest _ _. exists []. split_and!; [done| |by left].
    apply Forall_singleton. by left.
  - intros pending results now a rest _ _ _. exists [a]. split_and!; [done| |by left].
    apply Forall_singleton. by left.
  - intros pending results now a rest msg e _ _ _ _. exists [a].
    split_and!; [done| |by left]. apply Forall_singleton. by left.
  - intros pending results now a rest msg pending' results' _ _ Hwhat Hmsg
      (read & Hread & Hpts & Hout).
    assert (∀ k, k ∈ dict_keys results' →
                 k ∈ dict_keys results ∨ k ∈ names_in [a]) as Hstep.
    { apply on_message_cases in Hmsg
        as [[_ ->]|(name & resp & Hresp & _ & _ & ->)]; [by left|].
      intros k [Hk|[-> _]]%dict_set_elem_of_keys; [by left|].
      right. eapply elem_of_names_in; [by left|done..]. }
    assert (∀ k, k ∈ dict_keys results' ∨ k ∈ names_in read →
                 k ∈ dict_keys results ∨ k ∈ names_in (a :: read)) as Hglue.
    { intros k. change (a :: read) with ([a] ++ read).
      rewrite names_in_app, elem_of_app.
      intros [[?|?]%Hstep|?]; auto. }
    exists (a :: read). split_and!.
    + simpl. by rewrite <- Hread.
    + apply Forall_cons. split; [by left|].
      apply Forall_cons. split; [intros k Hk; apply Hglue; by left|].
      eapply Forall_impl; [exact Hpts|]. simpl. intros s Hs k Hk. by apply Hglue, Hs.
    + intros k Hk. by apply Hglue, Hout.
Qed.

Lemma run_batches_read idle_timeout batches c results now inbox outbox :
  let r := run_batches idle_timeout batches c results now inbox outbox in
  ∃ read,
    inbox = read ++ unread r ∧
    Forall (λ s, ∀ k, k ∈ dict_keys (results_now s) →
                      k ∈ dict_keys results ∨ k ∈ names_in read) (points r) ∧
    (∀ k, k ∈ dict_keys (final_results r) →
          k ∈ dict_keys results ∨ k ∈ names_in read).
Proof.
  simpl. revert c results now inbox outbox.
  induction batches as [|batch more IH]; intros c results now inbox outbox; simpl.
  { exists []. split_and!; [done|constructor|by left]. }
  destruct (send now inbox outbox _) as [outbox'|e]; simpl.
  2:{ exists []. split_and!; [done|constructor|by left]. }
  destruct (recv_loop_read idle_timeout c (list_to_set batch) results now inbox)
    as (read & Hread & Hpts & Hout).
  set (group := recv_loop idle_timeout c (list_to_set batch) results now inbox) in *.
  destruct (how group) as [|e]; simpl; [|by exists read].
  destruct (IH (c + 1)%N (results_out group) (now_out group) (inbox_out group)
               outbox') as (read' & Hread' & Hpts' & Hout').
  assert (∀ k, k ∈ dict_keys (results_out group) ∨ k ∈ names_in read' →
               k ∈ dict_keys results ∨ k ∈ names_in (read ++ read')) as Hglue.
  { intros k. rewrite names_in_app, elem_of_app.
    intros [[?|?]%Hout|?]; auto. }
  exists (read ++ read'). split_and!.
  - by rewrite <- app_assoc, <- Hread'.
  - apply Forall_app. split.
    + eapply Forall_impl; [exact Hpts|]. simpl. intros s Hs k Hk.
      rewrite names_in_app, elem_of_app. destruct (Hs k Hk); auto.
    + eapply Forall_impl; [exact Hpts'|]. simpl. intros s Hs k Hk.
      by apply Hglue, Hs.
  - intros k Hk. by apply Hglue, Hout'.
Qed.

(** ** The keys of a run: pending, stored or abandoned *)

(** C1, amended. At every point of a run the pending-set holds keys of
    the group in flight only, and each key of that group is pending or in
    the store; each key of an earlier group is in the store or was left
    pending when the receive loop of its group ended (abandoned on the
    idle timeout).  Every key of the store, at every point and at the end,
    is a name carried by a response among the frames that the run read
    from the session, an input key or not.  At the end of a run that did
    not fail every input key is in the store or was left pending by its
    group. *)
Theorem keys_pending_stored_or_abandoned (domains : list string)
    (batch_size : Z) (idle_timeout : positive) (inbox : list arrival) :
  0 < batch_size →
  let r := query_domains domains batch_size idle_timeout (Some inbox) in
  ∃ batches read,
    chunked domains batch_size = Ok batches ∧
    mjoin batches = domains ∧
    inbox = read ++ unread r ∧
    Forall (λ s, ∃ i batch,
        batches !! i = Some batch ∧
        at_group s = N.of_nat (S i) ∧
        pending_now s ⊆ list_to_set batch ∧
        list_to_set batch ⊆ pending_now s ∪ str_keys (results_now s) ∧
        (∀ j b, (j < i)%nat → batches !! j = Some b →
           ∃ p, left_pending r !! j = Some p ∧ p ⊆ list_to_set b ∧
                list_to_set b ⊆ p ∪ str_keys (results_now s)) ∧
        (∀ k, k ∈ dict_keys (results_now s) → k ∈ names_in read))
      (points r) ∧
    (ended r = Normal →
       ∀ k, k ∈ domains →
         k ∈ str_keys (final_results r) ∨ ∃ p, p ∈ left_pending r ∧ k ∈ p) ∧
    (∀ k, k ∈ dict_keys (final_results r) → k ∈ names_in read).
Proof.
  intros Hsize r.
  destruct (chunked_join domains batch_size Hsize)
    as (batches & Hok & _ & Hjoin & _).
  unfold r, query_domains. rewrite Hok.
  destruct (run_batches_inv idle_timeout batches 1 [] 0 inbox [])
    as [Hpts (_ & Hnormal & Hleft & _ & _ & _)].
  destruct (run_batches_read idle_timeout batches 1 [] 0 inbox [])
    as (read & Hread & Hread_pts & Hread_out).
  set (r' := run_batches idle_timeout batches 1 [] 0 inbox []) in *.
  exists batches, read. split_and!; [done|done|done|..].
  - apply Forall_lookup. intros n s Hs.
    rewrite Forall_lookup in Hpts. rewrite Forall_lookup in Hread_pts.
    destruct (Hpts n s Hs) as (i & batch & Hb & Hat & HA & HB & _ & _ & HE).
    exists i, batch. split_and!; try done.
    + rewrite Hat. lia.
    + intros k Hk. destruct (Hread_pts n s Hs k Hk) as [Hnil|Hin]; [|done].
      by apply elem_of_nil in Hnil.
  - intros Hn k Hk. rewrite <- Hjoin in Hk.
    apply list_elem_of_join in Hk as (b & Hkb & Hb).
    apply list_elem_of_lookup_1 in Hb as [j Hj].
    destruct (left_pending r' !! j) as [p|] eqn:Hp.
    2:{ apply lookup_ge_None in Hp. apply lookup_lt_Some in Hj.
        pose proof (Hnormal Hn) as Hlen. lia. }
    destruct (Hleft j b p Hj Hp) as [_ Hcover].
    assert (k ∈ (list_to_set b : gset string)) as Hin by set_solver.
    apply Hcover in Hin. apply elem_of_union in Hin as [Hin|Hin].
    + right. exists p. split; [|done]. by eapply list_elem_of_lookup_2.
    + by left.
  - intros k [Hk|Hk]%Hread_out; [|done]. by apply elem_of_nil in Hk.
Qed.

Lemma keys_pending_stored_or_abandoned_witness :
  let inbox :=
    [Arrival 1 (Data (Decoded (JObj
       [("type", JStr "domainStatusResponse");
        ("data", JObj [("name", JStr "a.com"); ("available", JBool true)])])))] in
  let r := query_domains ["a.com"; "b.com"; "c.com"] 2 5 (Some inbox) in
  ∃ batches read,
    chunked ["a.com"; "b.com"; "c.com"] 2 = Ok batches ∧
    mjoin batches = ["a.com"; "b.com"; "c.com"] ∧
    inbox = read ++ unread r ∧
    Forall (λ s, ∃ i batch,
        batches !! i = Some batch ∧
        at_group s = N.of_nat (S i) ∧
        pending_now s ⊆ list_to_set batch ∧
        list_to_set batch ⊆ pending_now s ∪ str_keys (results_now s) ∧
        (∀ j b, (j < i)%nat → batches !! j = Some b →
           ∃ p, left_pending r !! j = Some p ∧ p ⊆ list_to_set b ∧
                list_to_set b ⊆ p ∪ str_keys (results_now s)) ∧
        (∀ k, k ∈ dict_keys (results_now s) → k ∈ names_in read))
      (points r) ∧
    (ended r = Normal →
       ∀ k, k ∈ ["a.com"; "b.com"; "c.com"] →
         k ∈ str_keys (final_results r) ∨ ∃ p, p ∈ left_pending r ∧ k ∈ p) ∧
    (∀ k, k ∈ dict_keys (final_results r) → k ∈ names_in read).
Proof.
  apply (keys_pending_stored_or_abandoned ["a.com"; "b.com"; "c.com"] 2 5). lia.
Defined.

(** C1 as stated fails on three keys sent two per group over a session on
    which nothing arrives: when the first request has gone out the
    pending-set and the store together hold two of the three input keys,
    and at the end of the run, which did not fail, the store holds none. *)
Lemma first_group_does_not_cover_input :
  let domains := ["a.com"; "b.com"; "c.com"] in
  let r := query_domains domains 2 5 (Some []) in
  (∃ s, points r !! 0%nat = Some s ∧
        pending_now s ∪ str_keys (results_now s) ≠ list_to_set domains) ∧
  ended r = Normal ∧
  str_keys (final_results r) ≠ list_to_set domains.
Proof.
  intros domains r. split_and!.
  - eexists. split; [reflexivity|]. simpl.
    intros H. apply (f_equal (λ X : gset string, bool_decide ("c.com" ∈ X))) in H.
    vm_compute in H. discriminate.
  - reflexivity.
  - intros H. apply (f_equal (λ X : gset string, bool_decide ("c.com" ∈ X))) in H.
    vm_compute in H. discriminate.
Qed.

(** ** Single messages in the receive loop (lines 123-139) *)

(** C2, amended. A message that [json.loads] rejects with
    [JSONDecodeError], received while keys are pending, raises nothing,
    leaves the pending-set and the store as they are and does not end the
    loop; but it does restart the idle timer: the loop goes on with a
    receive that starts at the arrival of the message and waits the full
    idle timeout from there, so that when nothing else arrives the loop is
    left one idle timeout after that arrival.  A message whose decoding
    fails with another error (a binary frame that is not valid UTF-8, for
    one) is not skipped: the error leaves the loop uncaught, the
    pending-set and the store being as they were. *)
Theorem malformed_message_skipped (idle_timeout : positive) (group : N)
    (pending : gset string) (results : dict) (now : N) (a : arrival)
    (rest : list arrival) (msg : message) :
  pending ≠ ∅ →
  what a = Data msg →
  in_time idle_timeout now a = true →
  let now' := N.max now (at_time a) in
  let x := recv_loop idle_timeout group pending results now (a :: rest) in
  (msg = JSONDecodeError →
     x = visiting [Snapshot group pending results now;
                   Snapshot group pending results now']
           (recv_loop idle_timeout group pending results now' rest) ∧
     (rest = [] →
        how x = Normal ∧ pending_out x = pending ∧ results_out x = results ∧
        now_out x = deadline idle_timeout now')) ∧
  (msg = LoadsRaises →
     x = LoopExit [Snapshot group pending results now] pending results now' rest
                  (Raised DecodeCrash)).
Proof.
  intros Hne Hwhat Htime now' x. unfold x. simpl.
  destruct (decide (pending = ∅)) as [?|_]; [done|].
  rewrite Htime, Hwhat. split; intros ->; simpl; [|done].
  split; [done|].
  intros ->. simpl. by destruct (decide (pending = ∅)).
Qed.

Lemma malformed_message_skipped_witness :
  let x := recv_loop 5 1 {[ "a.com" ]} [] 0 [Arrival 3 (Data JSONDecodeError)] in
  let y := recv_loop 5 1 {[ "a.com" ]} [] 0 [Arrival 3 (Data LoadsRaises)] in
  (x = visiting [Snapshot 1 {[ "a.com" ]} [] 0; Snapshot 1 {[ "a.com" ]} [] 3]
         (recv_loop 5 1 {[ "a.com" ]} [] 3 []) ∧
   how x = Normal ∧ pending_out x = {[ "a.com" ]} ∧ results_out x = [] ∧
   now_out x = deadline 5 3) ∧
  y = LoopExit [Snapshot 1 {[ "a.com" ]} [] 0] {[ "a.com" ]} [] 3 []
               (Raised DecodeCrash).
Proof.
  split.
  - destruct (malformed_message_skipped 5 1 {[ "a.com" ]} [] 0
                (Arrival 3 (Data JSONDecodeError)) [] JSONDecodeError)
      as [[Hskip Halone] _];
      [apply non_empty_singleton_L|reflexivity|reflexivity|reflexivity|].
    split; [exact Hskip|]. exact (Halone eq_refl).
  - destruct (malformed_message_skipped 5 1 {[ "a.com" ]} [] 0
                (Arrival 3 (Data LoadsRaises)) [] LoadsRaises)
      as [_ Hraise];
      [apply non_empty_singleton_L|reflexivity|reflexivity|].
    exact (Hraise eq_refl).
Defined.

(** C2 as stated fails: a malformed message resets the idle timer.  With
    an idle timeout of 5 a response arriving at tick 6 comes too late for
    a request sent at tick 0 and the key is abandoned at tick 5; with a
    malformed message arriving at tick 3 before it, the same response is
    received and stored. *)
Lemma malformed_message_restarts_timer :
  let response :=
    Data (Decoded (JObj [("type", JStr "domainStatusResponse");
                         ("data", JObj [("name", JStr "a.com")])])) in
  let alone := query_domains ["a.com"] 1 5 (Some [Arrival 6 response]) in
  let after_malformed :=
    query_domains ["a.com"] 1 5
      (Some [Arrival 3 (Data JSONDecodeError); Arrival 6 response]) in
  (final_results alone = [] ∧ finished_at alone = 5%N) ∧
  (dict_keys (final_results after_malformed) = [JStr "a.com"] ∧
   finished_at after_malformed = 6%N).
Proof. vm_compute. done. Qed.

(** C4, amended. A well-formed response whose key is not in the
    pending-set raises nothing and leaves the pending-set as it is, but it
    is not ignored: its record is stored under its key, every other entry
    of the store stays as it was, and the loop goes on from there. *)
Theorem unrequested_response_stored (idle_timeout : positive) (group : N)
    (pending : gset string) (results : dict) (now : N) (a : arrival)
    (rest : list arrival) (msg : message) (name : string) (record : json) :
  pending ≠ ∅ →
  what a = Data msg →
  in_time idle_timeout now a = true →
  is_response msg name record →
  name ∉ pending →
  let now' := N.max now (at_time a) in
  let results' := dict_set results (JStr name) record in
  recv_loop idle_timeout group pending results now (a :: rest)
  = visiting [Snapshot group pending results now;
              Snapshot group pending results' now']
      (recv_loop idle_timeout group pending results' now' rest) ∧
  dict_lookup results' name = Some record ∧
  (∀ other, other ≠ name → dict_lookup results' other = dict_lookup results other).
Proof.
  intros Hne Hwhat Htime Hresp Hout now' results'. split_and!.
  - simpl. destruct (decide (pending = ∅)) as [?|_]; [done|].
    rewrite Htime, Hwhat. simpl.
    rewrite (on_message_response _ _ _ pending results Hresp).
    replace (pending ∖ {[ name ]}) with pending by set_solver. done.
  - apply dict_lookup_set_eq.
  - intros other Hother. apply dict_lookup_set_ne. congruence.
Qed.

Lemma unrequested_response_stored_witness :
  let record := JObj [("name", JStr "z.com"); ("available", JBool true)] in
  let msg := Decoded (JObj [("type", JStr "domainStatusResponse"); ("data", record)]) in
  let results' := dict_set [] (JStr "z.com") record in
  recv_loop 5 1 {[ "a.com" ]} [] 0 [Arrival 1 (Data msg)]
  = visiting [Snapshot 1 {[ "a.com" ]} [] 0; Snapshot 1 {[ "a.com" ]} results' 1]
      (recv_loop 5 1 {[ "a.com" ]} results' 1 []) ∧
  dict_lookup results' "z.com" = Some record ∧
  (∀ other, other ≠ "z.com" → dict_lookup results' other = dict_lookup [] other).
Proof.
  intros record msg.
  apply (unrequested_response_stored 5 1 {[ "a.com" ]} [] 0
           (Arrival 1 (Data msg)) [] msg "z.com" record).
  - apply non_empty_singleton_L.
  - reflexivity.
  - reflexivity.
  - eexists _, _. split_and!; try reflexivity. discriminate.
  - rewrite elem_of_singleton. discriminate.
Defined.

(** C4 as stated fails: a response for z.com, received while a.com is the
    only key asked for, is not ignored: the run ends with a record for
    z.com in the store. *)
Lemma unrequested_response_changes_store :
  let record := JObj [("name", JStr "z.com"); ("available", JBool true)] in
  let msg := Decoded (JObj [("type", JStr "domainStatusResponse"); ("data", record)]) in
  let r := query_domains ["a.com"] 1 5 (Some [Arrival 1 (Data msg)]) in
  ended r = Normal ∧
  final_results r = [(JStr "z.com", record)] ∧
  final_results r ≠ final_results (query_domains ["a.com"] 1 5 (Some [])).
Proof. vm_compute. split_and!; done. Qed.

(** C6, amended. A response of the expected type that carries a key is
    stored under that key exactly as the response gives it: no
    lower-casing or other normalisation is applied.  The record is the
    response's [data]; every other entry of the store stays as it was; the
    key as received is discarded from the pending-set, which is no error
    and changes nothing when that key is not pending. *)
Theorem response_stored_under_its_key (msg : message) (name : string)
    (record : json) (pending : gset string) (results : dict) :
  is_response msg name record →
  ∃ results',
    on_message msg pending results = Ok (pending ∖ {[ name ]}, results') ∧
    JStr name ∈ dict_keys results' ∧
    dict_lookup results' name = Some record ∧
    (∀ other, other ≠ name →
       dict_lookup results' other = dict_lookup results other) ∧
    (name ∉ pending → pending ∖ {[ name ]} = pending).
Proof.
  intros Hresp. exists (dict_set results (JStr name) record). split_and!.
  - by apply on_message_response.
  - apply elem_of_str_keys. rewrite str_keys_dict_set_str. set_solver.
  - apply dict_lookup_set_eq.
  - intros other Hother. apply dict_lookup_set_ne. congruence.
  - set_solver.
Qed.

Lemma response_stored_under_its_key_witness :
  let record := JObj [("name", JStr "A.com"); ("available", JBool false)] in
  let msg := Decoded (JObj [("type", JStr "domainStatusResponse"); ("data", record)]) in
  ∃ results',
    on_message msg {[ "a.com" ]} [] = Ok ({[ "a.com" ]} ∖ {[ "A.com" ]}, results') ∧
    JStr "A.com" ∈ dict_keys results' ∧
    dict_lookup results' "A.com" = Some record ∧
    (∀ other, other ≠ "A.com" → dict_lookup results' other = dict_lookup [] other) ∧
    ("A.com" ∉ ({[ "a.com" ]} : gset string) →
       ({[ "a.com" ]} : gset string) ∖ {[ "A.com" ]} = {[ "a.com" ]}).
Proof.
  intros record msg.
  apply (response_stored_under_its_key msg "A.com" record {[ "a.com" ]} []).
  eexists _, _. split_and!; try reflexivity. discriminate.
Defined.

(** C6 as stated fails: the key is not lower-cased.  A response named
    A.com, received while a.com is pending, is stored under A.com; the
    store has no entry under the lower-cased key a.com, and a.com stays
    pending until the idle timeout. *)
Lemma response_key_not_lower_cased :
  let record := JObj [("name", JStr "A.com"); ("available", JBool false)] in
  let msg := Decoded (JObj [("type", JStr "domainStatusResponse"); ("data", record)]) in
  let r := query_domains ["a.com"] 1 5 (Some [Arrival 1 (Data msg)]) in
  ascii_lower "A.com" = "a.com" ∧
  on_message msg {[ "a.com" ]} [] = Ok ({[ "a.com" ]}, [(JStr "A.com", record)]) ∧
  final_results r = [(JStr "A.com", record)] ∧
  dict_lookup (final_results r) (ascii_lower "A.com") = None ∧
  left_pending r = [{[ "a.com" ]}] ∧
  finished_at r = 6%N.
Proof.
  intros record msg r. split_and!; reflexivity.
Qed.

(** ** Timeouts (lines 123-127) *)

Lemma each_step_app {A} (R : relation A) (l1 l2 : list A) :
  each_step R l1 → each_step R l2 →
  (∀ a b, last l1 = Some a → head l2 = Some b → R a b) →
  each_step R (l1 ++ l2).
Proof.
  intros H1 H2 Hlink. induction l1 as [|x [|y l1] IH]; simpl in *.
  - done.
  - destruct l2 as [|b l2]; [done|]. split; [by apply Hlink|done].
  - destruct H1 as [Hxy H1]. split; [done|]. apply IH; [done|].
    intros a b Ha Hb. by apply Hlink.
Qed.

Section Timing.
Variable idle_timeout : positive.

(** The points of one receive loop, and how it is left. *)
Lemma recv_loop_timing group pending results now inbox :
  let x := recv_loop idle_timeout group pending results now inbox in
  each_step (run_step idle_timeout) (visited x) ∧
  ∃ s, last (visited x) = Some s ∧ at_group s = group ∧
       (how x = Normal →
          pending_now s = pending_out x ∧ results_now s = results_out x ∧
          left_at idle_timeout s (now_out x)).
Proof.
  simpl. revert pending results now inbox.
  apply (recv_loop_ind idle_timeout group
    (λ pending results now inbox x,
       each_step (run_step idle_timeout) (visited x) ∧
       ∃ s, last (visited x) = Some s ∧ at_group s = group ∧
            (how x = Normal →
               pending_now s = pending_out x ∧ results_now s = results_out x ∧
               left_at idle_timeout s (now_out x)))); simpl.
  - intros results now inbox. split; [done|]. eexists. split_and!; try done.
    intros _. split_and!; try done. by left.
  - intros pending results now Hne. split; [done|]. eexists. split_and!; try done.
    intros _. split_and!; try done. by right.
  - intros pending results now a rest Hne _. split; [done|].
    eexists. split_and!; try done. intros _. split_and!; try done. by right.
  - intros pending results now a rest Hne _ _. split; [done|].
    eexists. by split_and!.
  - intros pending results now a rest msg e Hne _ _ _. split; [done|].
    eexists. by split_and!.
  - intros pending results now a rest msg pending' results' Hne Htime Hwhat Hmsg
      [IHstep (s & Hlast & Hat & Hexit)].
    destruct (recv_loop_head idle_timeout group pending' results'
                (N.max now (at_time a)) rest) as [tl Htl].
    rewrite Htl in *. unfold in_time in Htime. apply N.ltb_lt in Htime.
    split.
    + simpl. split_and!; [| |done].
      * left. simpl. unfold deadline. split_and!; [done|done|lia|lia].
      * left. simpl. unfold deadline. split_and!; [done|done|lia|lia].
    + exists s. split_and!; [|done|done].
      exact Hlast.
Qed.

Lemma recv_loop_raises_nothing group pending results now inbox :
  let x := recv_loop idle_timeout group pending results now inbox in
  forallb raises_nothing inbox = true →
  how x = Normal ∧ forallb raises_nothing (inbox_out x) = true.
Proof.
  simpl. revert pending results now.
  induction inbox as [|a rest IH]; intros pending results now Hall; simpl.
  - by destruct (decide (pending = ∅)).
  - destruct (decide (pending = ∅)); [done|].
    destruct (in_time idle_timeout now a); [|done].
    simpl in Hall. apply andb_true_iff in Hall as [Ha Hrest].
    unfold raises_nothing in Ha. unfold on_message, dict_setitem.
    destruct (what a) as [msg|]; [|done].
    destruct (response_of msg) as [[[name resp]|]|]; [| |done].
    + rewrite Ha. simpl. by apply IH.
    + simpl. by apply IH.
Qed.

Lemma closed_by_raises_nothing now inbox :
  forallb raises_nothing inbox = true → closed_by now inbox = false.
Proof.
  intros Hall. unfold closed_by. apply not_true_iff_false.
  rewrite existsb_exists. intros (a & Hin & Ha).
  rewrite forallb_forall in Hall. specialize (Hall a Hin).
  unfold raises_nothing in Hall. by destruct (what a).
Qed.

(** The points of a run. *)
Lemma run_batches_timing batches c results now inbox outbox :
  let r := run_batches idle_timeout batches c results now inbox outbox in
  each_step (run_step idle_timeout) (points r) ∧
  (∀ s, head (points r) = Some s →
        at_group s = c ∧ results_now s = results ∧ clock s = now) ∧
  (ended r = Normal →
     (points r = [] → final_results r = results ∧ finished_at r = now) ∧
     (∀ s, last (points r) = Some s →
           results_now s = final_results r ∧
           left_at idle_timeout s (finished_at r))).
Proof.
  simpl. revert c results now inbox outbox.
  induction batches as [|batch more IH]; intros c results now inbox outbox; simpl.
  { split_and!; try done. }
  destruct (send now inbox outbox _) as [outbox'|e]; simpl.
  2:{ split_and!; try done. }
  destruct (recv_loop_timing c (list_to_set batch) results now inbox)
    as (Hsteps & s0 & Hlast & Hat & Hexit).
  destruct (recv_loop_head idle_timeout c (list_to_set batch) results now inbox)
    as [tl Htl].
  set (group := recv_loop idle_timeout c (list_to_set batch) results now inbox) in *.
  destruct (how group) as [|e] eqn:Hhow; simpl.
  2:{ split_and!; try done. intros s. rewrite Htl. by intros [= <-]. }
  destruct (Hexit eq_refl) as (Hp & Hr & Hleft).
  specialize (IH (c + 1)%N (results_out group) (now_out group) (inbox_out group)
                 outbox') as (IHsteps & IHhead & IHend).
  set (r' := run_batches idle_timeout more (c + 1) (results_out group)
               (now_out group) (inbox_out group) outbox') in *.
  split_and!.
  - apply each_step_app; [done|done|].
    intros a b Ha Hb. rewrite Hlast in Ha. injection Ha as <-.
    destruct (IHhead b Hb) as (Hb1 & Hb2 & Hb3).
    right. rewrite Hb1, Hb2, Hb3, Hat. by split_and!.
  - intros s. rewrite Htl. simpl. by intros [= <-].
  - intros Hn. destruct (IHend Hn) as [IHnil IHlast]. split.
    + rewrite Htl. done.
    + intros s. destruct (points r') as [|s1 pts] eqn:Hpts.
      * rewrite app_nil_r, Hlast. intros [= <-].
        destruct (IHnil eq_refl) as [-> ->]. by split.
      * rewrite last_app. destruct (last (s1 :: pts)) as [s2|] eqn:Hl.
        -- intros [= <-]. by apply IHlast.
        -- by apply last_None in Hl.
Qed.

Lemma run_batches_raises_nothing batches c results now inbox outbox :
  let r := run_batches idle_timeout batches c results now inbox outbox in
  forallb raises_nothing inbox = true → ended r = Normal.
Proof.
  simpl. revert c results now inbox outbox.
  induction batches as [|batch more IH]; intros c results now inbox outbox Hall;
    simpl; [done|].
  unfold send. rewrite closed_by_raises_nothing by done. simpl.
  destruct (recv_loop_raises_nothing c (list_to_set batch) results now inbox Hall)
    as [-> Hout].
  simpl. by apply IH.
Qed.

End Timing.

(** ** Groups that are answered *)

Lemma names_in_cons_data a msg frames :
  what a = Data msg →
  names_in (a :: frames)
  = match response_of msg with
    | Ok (Some (name, _)) => name :: names_in frames
    | _ => names_in frames
    end.
Proof.
  intros Hwhat. unfold names_in. simpl. rewrite Hwhat.
  by destruct (response_of msg) as [[[??]|]|].
Qed.

(** A receive loop whose frames come in time, raise nothing and answer
    every pending key reads on until no key is pending and is left at
    the arrival of the last frame it read. *)
Lemma recv_loop_all_answered idle_timeout group frames rest pending results now :
  forallb raises_nothing frames = true →
  timely idle_timeout now frames →
  pending ⊆ response_names frames →
  let x := recv_loop idle_timeout group pending results now (frames ++ rest) in
  how x = Normal ∧ pending_out x = ∅ ∧
  pending ⊆ str_keys (results_out x) ∧
  ∃ read, read `prefix_of` frames ∧
          frames ++ rest = read ++ inbox_out x ∧
          now_out x = foldl N.max now (at_time <$> read).
Proof.
  simpl. revert pending results now.
  induction frames as [|a frames IH]; intros pending results now Hfine Htime Hall.
  - assert (pending = ∅) as -> by (unfold response_names in Hall; set_solver).
    rewrite app_nil_l.
    assert (recv_loop idle_timeout group ∅ results now rest
            = LoopExit [Snapshot group ∅ results now] ∅ results now rest Normal)
      as ->.
    { destruct rest; simpl; by destruct (decide (∅ = ∅)). }
    simpl. split_and!; [done|done|set_solver|]. by exists [].
  - rewrite <- app_comm_cons. cbn [recv_loop].
    destruct (decide (pending = ∅)) as [->|Hne].
    { simpl. split_and!; [done|done|set_solver|].
      exists []. split_and!; [apply prefix_nil|done|done]. }
    simpl in Hfine. apply andb_true_iff in Hfine as [Ha Hfine].
    destruct Htime as [Hta Htime].
    assert (in_time idle_timeout now a = true) as ->.
    { unfold in_time. apply N.ltb_lt. exact Hta. }
    unfold raises_nothing in Ha.
    destruct (what a) as [msg|] eqn:Hwhat; [|done].
    unfold response_names in Hall. rewrite (names_in_cons_data a msg frames Hwhat) in Hall.
    unfold on_message, dict_setitem.
    destruct (response_of msg) as [[[name resp]|]|] eqn:Hresp; [| |done].
    + rewrite Ha.
      destruct (IH (set_discard pending name) (dict_set results name resp)
                   (N.max now (at_time a)) Hfine Htime)
        as (H1 & H2 & H3 & read & Hread & Hrest & Hnow).
      { unfold response_names. destruct name; simpl in *; set_solver. }
      pose proof (recv_loop_inv idle_timeout group (set_discard pending name)
                    (dict_set results name resp) (N.max now (at_time a))
                    (frames ++ rest) (set_discard pending name)
                    (dict_set results name resp) (frames ++ rest)
                    (loop_inv_start _ _ _) (reflexivity _))
        as (_ & (_ & _ & Hmono & _) & _).
      simpl. split_and!; [done|done| |].
      * intros k Hk. destruct name as [| | | |s| |]; simpl in H3; try by apply H3.
        destruct (decide (k = s)) as [->|Hks].
        -- apply Hmono. rewrite str_keys_dict_set_str. set_solver.
        -- apply H3. set_solver.
      * exists (a :: read). split_and!.
        -- by apply prefix_cons.
        -- simpl. f_equal. exact Hrest.
        -- done.
    + destruct (IH pending results (N.max now (at_time a)) Hfine Htime)
        as (H1 & H2 & H3 & read & Hread & Hrest & Hnow); [done|].
      simpl. split_and!; [done|done|done|].
      exists (a :: read). split_and!.
      * by apply prefix_cons.
      * simpl. f_equal. exact Hrest.
      * done.
Qed.

(** C3. A receive loop whose frames come in time, raise nothing and
    carry a response for every pending key reads on until the
    pending-set is empty, with every one of those keys in the store, and
    is left at the arrival of the last frame it read, without a further
    wait.  On a session whose frames raise nothing, whatever their arrival
    times: the run does not fail and every group is sent; a receive loop
    whose pending-set has become empty is left at that very tick (the
    next request goes out, or the run ends, without a further wait), and
    one left with keys pending is left by the idle timeout, one full
    timeout after its last point, the store being handed on unchanged and
    the pending keys dropped; a key that no response names is absent from
    the store at the end. *)
Theorem timeouts_abandon_and_continue (domains : list string) (batch_size : Z)
    (idle_timeout : positive) (inbox : list arrival) :
  0 < batch_size →
  forallb raises_nothing inbox = true →
  let r := query_domains domains batch_size idle_timeout (Some inbox) in
  (∀ group pending results now frames rest,
     forallb raises_nothing frames = true →
     timely idle_timeout now frames →
     pending ⊆ response_names frames →
     let x := recv_loop idle_timeout group pending results now (frames ++ rest) in
     how x = Normal ∧ pending_out x = ∅ ∧
     pending ⊆ str_keys (results_out x) ∧
     ∃ read, read `prefix_of` frames ∧
             frames ++ rest = read ++ inbox_out x ∧
             now_out x = foldl N.max now (at_time <$> read)) ∧
  ended r = Normal ∧
  (∃ batches,
     chunked domains batch_size = Ok batches ∧
     length (sent r) = length batches ∧
     length (left_pending r) = length batches) ∧
  each_step (run_step idle_timeout) (points r) ∧
  (∀ s, last (points r) = Some s →
        results_now s = final_results r ∧
        left_at idle_timeout s (finished_at r)) ∧
  (∀ k, JStr k ∉ names_in inbox → k ∉ str_keys (final_results r)).
Proof.
  intros Hsize Hall r.
  split.
  { intros group pending results now frames rest.
    apply recv_loop_all_answered. }
  destruct (chunked_join domains batch_size Hsize) as (batches & Hok & _).
  unfold r, query_domains. rewrite Hok.
  pose proof (run_batches_raises_nothing idle_timeout batches 1 [] 0 inbox [] Hall)
    as Hn.
  destruct (run_batches_timing idle_timeout batches 1 [] 0 inbox [])
    as (Hsteps & _ & Hend).
  destruct (run_batches_inv idle_timeout batches 1 [] 0 inbox [])
    as [_ (_ & Hlen & _ & _ & Hnames & _)].
  destruct (run_batches_sent idle_timeout batches 1 [] 0 inbox [])
    as (n & _ & Hsent & Hall_sent).
  set (r' := run_batches idle_timeout batches 1 [] 0 inbox []) in *.
  split_and!.
  - done.
  - exists batches. split_and!; [done| |by apply Hlen].
    rewrite Hsent, (Hall_sent Hn). simpl.
    by rewrite length_imap, take_ge.
  - done.
  - by apply Hend.
  - intros k Hk Hin. apply elem_of_str_keys in Hin.
    apply Hnames in Hin as [Hin|Hin]; [|done]. by apply elem_of_nil in Hin.
Qed.

Lemma timeouts_abandon_and_continue_witness :
  let response name :=
    Data (Decoded (JObj [("type", JStr "domainStatusResponse");
                         ("data", JObj [("name", JStr name)])])) in
  let inbox := [Arrival 2 (response "a.com"); Arrival 9 (response "b.com")] in
  let r := query_domains ["a.com"; "b.com"; "c.com"] 1 5 (Some inbox) in
  let frames := [Arrival 4 (response "b.com"); Arrival 8 (response "a.com")] in
  let x := recv_loop 5 1 {[ "a.com"; "b.com" ]} [] 0 (frames ++ [Arrival 9 Close]) in
  (how x = Normal ∧ pending_out x = ∅ ∧
   {[ "a.com"; "b.com" ]} ⊆ str_keys (results_out x) ∧
   ∃ read, read `prefix_of` frames ∧
           frames ++ [Arrival 9 Close] = read ++ inbox_out x ∧
           now_out x = foldl N.max 0%N (at_time <$> read)) ∧
  ended r = Normal ∧
  (∃ batches,
     chunked ["a.com"; "b.com"; "c.com"] 1 = Ok batches ∧
     length (sent r) = length batches ∧
     length (left_pending r) = length batches) ∧
  each_step (run_step 5) (points r) ∧
  (∀ s, last (points r) = Some s →
        results_now s = final_results r ∧ left_at 5 s (finished_at r)) ∧
  (∀ k, JStr k ∉ names_in inbox → k ∉ str_keys (final_results r)).
Proof.
  intros response inbox r frames x.
  destruct (timeouts_abandon_and_continue ["a.com"; "b.com"; "c.com"] 1 5 inbox)
    as (Hloop & Hrun); [lia|reflexivity|].
  split; [|exact Hrun].
  apply (Hloop 1%N {[ "a.com"; "b.com" ]} [] 0%N frames [Arrival 9 Close]).
  - reflexivity.
  - simpl. unfold deadline. lia.
  - apply (bool_decide_unpack _). vm_compute. exact I.
Defined.

(** ** Resuming (lines 210-222) *)

Section Resume.
Variable strip lower : string → string.

(** The domains of a list of bases are those of its bases one by one, in
    order: what the loop of [main] builds per base adds up to what
    [build_domains] builds for all of them. *)
Lemma build_domains_cons base more tlds use_tlds :
  build_domains strip lower (base :: more) tlds use_tlds
  = build_domains strip lower [base] tlds use_tlds
    ++ build_domains strip lower more tlds use_tlds.
Proof.
  unfold build_domains. destruct use_tlds; simpl.
  - by rewrite app_nil_r.
  - rewrite !filter_cons, filter_nil.
    by destruct (decide (nonempty (strip base) = true)).
Qed.

Lemma main_loop_resume bases tlds use_tlds batch_size idle_timeout existing out
    sessions :
  list_to_set (build_domains strip lower bases tlds use_tlds) ⊆ existing →
  main_loop strip lower bases tlds use_tlds batch_size idle_timeout existing out
            sessions
  = MainExit [] existing out Normal.
Proof.
  induction bases as [|base more IH]; intros Hsub; [done|].
  rewrite build_domains_cons, list_to_set_app_L in Hsub.
  cbn [main_loop].
  destruct (build_domains strip lower [base] tlds use_tlds) as [|d ds] eqn:Hb.
  - apply IH. set_solver.
  - destruct (decide (list_to_set (d :: ds) ⊆ existing)) as [_|Hnot].
    + apply IH. set_solver.
    + destruct Hnot. set_solver.
Qed.

End Resume.

(** C8. When every domain the input expands to is in the resume-set,
    [main] calls [query_domains] for no base, so that no request is sent
    and no result comes back: the resume-set and the output file are left
    as they were, and the run ends normally (given that there are bases
    and, unless TLDs are switched off, TLDs). *)
Theorem resume_sends_nothing (strip lower : string → string)
    (bases tlds : list string) (no_tlds : bool) (batch_size : Z)
    (idle_timeout : positive) (existing : gset string)
    (out : option (list row)) (sessions : list (option (list arrival))) :
  list_to_set (build_domains strip lower bases (if no_tlds then [] else tlds)
                             (negb no_tlds)) ⊆ existing →
  let x := main strip lower bases tlds no_tlds batch_size idle_timeout existing
                out sessions in
  runs x = [] ∧ existing_out x = existing ∧ file_out x = out ∧
  (bases ≠ [] → (no_tlds = false → tlds ≠ []) → main_ended x = Normal).
Proof.
  intros Hsub x. unfold x, main.
  destruct bases as [|base more]; [by split_and!|].
  destruct (negb no_tlds && _) eqn:Hcheck.
  - split_and!; try done. intros _ Htlds.
    destruct no_tlds; [done|]. simpl in Hcheck.
    destruct tlds; [|done]. by destruct Htlds.
  - rewrite main_loop_resume by done. by split_and!.
Qed.

Lemma resume_sends_nothing_witness :
  let existing : gset string := {[ "example.com"; "example.net" ]} in
  let out := Some [header] in
  let x := main id id ["example"] ["com"; "net"] false 50 5 existing out [] in
  runs x = [] ∧ existing_out x = existing ∧ file_out x = out ∧
  (["example"] ≠ [] → (false = false → ["com"; "net"] ≠ []) →
   main_ended x = Normal).
Proof.
  intros existing out.
  apply (resume_sends_nothing id id ["example"] ["com"; "net"] false 50 5
           existing out []).
  apply (bool_decide_unpack _). vm_compute. exact I.
Defined.

(** ** append_csv (lines 144-159) *)

Lemma string_compare_trans (s t u : string) :
  String.compare s t ≠ Gt → String.compare t u ≠ Gt → String.compare s u ≠ Gt.
Proof.
  revert t u. induction s as [|a s IH]; intros [|b t] [|c u]; simpl; try done.
  unfold Ascii.compare.
  destruct (N.compare_spec (N_of_ascii a) (N_of_ascii b));
    destruct (N.compare_spec (N_of_ascii b) (N_of_ascii c));
    destruct (N.compare_spec (N_of_ascii a) (N_of_ascii c));
    try done; try (intros; lia).
  apply IH.
Qed.

Lemma str_le_compare (s t : string) : str_le s t ↔ String.compare s t ≠ Gt.
Proof. unfold str_le, String.leb. by destruct (String.compare s t). Qed.

Lemma str_le_trans : Transitive str_le.
Proof.
  intros s t u. rewrite !str_le_compare. apply string_compare_trans.
Qed.

Lemma str_le_total : Total str_le.
Proof. intros s t. apply String.leb_total. Qed.

Lemma str_le_antisym : AntiSymm (=) str_le.
Proof. intros s t. apply String.leb_antisym. Qed.

(** [sorted] sorts: its result is in order and holds the same keys. *)
Lemma sorted_spec (keys : list string) :
  StronglySorted str_le (sorted keys) ∧ sorted keys ≡ₚ keys.
Proof.
  pose proof str_le_trans. pose proof str_le_total. split.
  - by apply StronglySorted_merge_sort.
  - apply merge_sort_Permutation.
Qed.

Lemma all_str_keys (keys : list json) (names : list string) :
  all_str keys = Some names ↔ keys = JStr <$> names.
Proof.
  unfold all_str. rewrite mapM_Some. split.
  - intros H. induction H as [|k s keys' names' Hk Hrest IH]; [done|].
    destruct k; simplify_eq/=. by f_equal.
  - intros ->. induction names as [|s names IH]; by constructor.
Qed.

Lemma dict_lookup_Some (d : dict) (k : string) (v : json) :
  dict_lookup d k = Some v → ∃ k', (k', v) ∈ d.
Proof.
  induction d as [|[k' v'] d IH]; simpl; [done|].
  destruct (py_eq k' (JStr k)).
  - intros [= ->]. exists k'. by left.
  - intros [k'' H]%IH. exists k''. by right.
Qed.

Lemma write_rows_ok (results : dict) (keys : list string) (file : list row) :
  Forall (λ k, ∃ fields, dict_lookup results k = Some (JObj fields)) keys →
  write_rows results keys file = (file ++ (row_of results <$> keys), Normal).
Proof.
  intros Hkeys. revert file.
  induction Hkeys as [|k keys [fields Hk] _ IH]; intros file; simpl.
  - by rewrite app_nil_r.
  - rewrite Hk. simpl. rewrite IH, <- app_assoc. simpl.
    unfold row_of. by rewrite Hk.
Qed.

(** C9. For a store whose keys are text and whose records are dicts,
    [append_csv] leaves the rows of the file in place and appends, after a
    header row that is written exactly when the file is absent or empty,
    one row per key: the key, its [available] and [lookupType] fields and
    the compact JSON text of its [extra] field, the keys in ascending
    order, each key of the store once. *)
Theorem append_csv_sorted (results : dict) (output : option (list row))
    (keys : list string) :
  all_str (dict_keys results) = Some keys →
  Forall (λ entry, ∃ fields, entry.2 = JObj fields) results →
  let header_row := if needs_header output then [header] else [] in
  append_csv results output
  = (default [] output ++ header_row ++ (row_of results <$> sorted keys), Normal) ∧
  StronglySorted str_le (sorted keys) ∧
  sorted keys ≡ₚ keys ∧
  (header_row = [header] ↔ output = None ∨ output = Some []).
Proof.
  intros Hkeys Hrecords header_row.
  destruct (sorted_spec keys) as [Hsorted Hperm].
  split_and!; [|done|done|].
  - unfold append_csv. rewrite Hkeys. fold header_row.
    rewrite write_rows_ok; [by rewrite <- app_assoc|].
    apply Forall_forall. intros k Hk. rewrite Hperm in Hk.
    assert (is_Some (dict_lookup results k)) as [v Hv].
    { apply dict_lookup_is_Some, elem_of_str_keys.
      apply all_str_keys in Hkeys. rewrite Hkeys. by apply list_elem_of_fmap_2. }
    destruct (dict_lookup_Some _ _ _ Hv) as [k' Hin].
    rewrite Forall_forall in Hrecords.
    destruct (Hrecords _ Hin) as [fields Hf]. simpl in Hf. subst v. eauto.
  - unfold header_row. destruct output as [[|row rows]|]; simpl; naive_solver.
Qed.

Lemma append_csv_sorted_witness :
  let results :=
    [(JStr "b.com", JObj [("name", JStr "b.com"); ("available", JBool true)]);
     (JStr "a.com", JObj [("name", JStr "a.com"); ("available", JBool false);
                          ("extra", JObj [("premium", JBool false)])])] in
  let output : option (list row) := None in
  let header_row := if needs_header output then [header] else [] in
  append_csv results output
  = (default [] output ++ header_row
       ++ (row_of results <$> sorted ["b.com"; "a.com"]), Normal) ∧
  StronglySorted str_le (sorted ["b.com"; "a.com"]) ∧
  sorted ["b.com"; "a.com"] ≡ₚ ["b.com"; "a.com"] ∧
  (header_row = [header] ↔ output = None ∨ output = Some []).
Proof.
  intros results output.
  apply (append_csv_sorted results output ["b.com"; "a.com"]).
  - reflexivity.
  - repeat constructor; simpl; eauto.
Defined.

(** ** More on chunked (lines 77-79) *)

Lemma range_from_lookup fuel i stop step k :
  (0 < step)%nat → (stop ≤ fuel + i)%nat →
  range_from fuel i stop step !! k
  = if decide (i + k * step < stop)%nat then Some (i + k * step)%nat else None.
Proof.
  intros Hstep. revert i k. induction fuel as [|fuel IH]; intros i k Hfuel; simpl.
  - destruct (decide _); [lia|done].
  - destruct (Nat.ltb_spec i stop) as [Hlt|Hge].
    + destruct k as [|k]; simpl.
      * rewrite Nat.add_0_r. by destruct (decide _).
      * rewrite IH by lia.
        replace (i + step + k * step)%nat with (i + (step + k * step))%nat by lia.
        done.
    + rewrite lookup_nil. destruct (decide _); [nia|done].
Qed.

(** The group with index [i] is the slice that starts at [i * size]. *)
Lemma chunked_lookup_slice (items : list string) (size : Z) (groups : list (list string))
    (i : nat) :
  0 < size → chunked items size = Ok groups →
  let n := Z.to_nat size in
  groups !! i = if decide (i * n < length items)%nat
                then Some (slice items (i * n) (i * n + n)) else None.
Proof.
  intros Hsize Hok n.
  destruct (chunked_join items size Hsize) as (groups' & Hok' & -> & _).
  rewrite Hok in Hok'. injection Hok' as ->.
  rewrite list_lookup_fmap, range_from_lookup by lia. fold n.
  rewrite Nat.add_0_l. by destruct (decide _).
Qed.

Lemma chunked_nonempty (items : list string) (size : Z) (groups : list (list string)) :
  0 < size → chunked items size = Ok groups → Forall (λ g, g ≠ []) groups.
Proof.
  intros Hsize Hok. apply Forall_lookup. intros i g Hg.
  rewrite (chunked_lookup_slice items size groups i Hsize Hok) in Hg.
  destruct (decide _) as [Hlt|]; [|done]. injection Hg as <-.
  intros Hnil. apply (f_equal length) in Hnil. unfold slice in Hnil.
  rewrite length_take, length_drop in Hnil. simpl in Hnil. lia.
Qed.

(** X1. For a positive size, the group with index [i] is
    [items[i * size : (i + 1) * size]] as long as [i * size] is below the
    number of items, and there is no such group otherwise; a group is
    never empty, and every group but the last holds exactly [size]
    keys. *)
Theorem chunked_group_by_index (items : list string) (size : Z) (i : nat) :
  0 < size →
  let n := Z.to_nat size in
  ∃ groups,
    chunked items size = Ok groups ∧
    groups !! i = (if decide (i * n < length items)%nat
                   then Some (take n (drop (i * n) items)) else None) ∧
    (∀ g, groups !! i = Some g →
       g ≠ [] ∧
       length g = (n `min` (length items - i * n))%nat ∧
       (is_Some (groups !! S i) → length g = n)).
Proof.
  intros Hsize n.
  destruct (chunked_join items size Hsize) as (groups & Hok & _).
  exists groups. split; [done|].
  pose proof (chunked_lookup_slice items size groups i Hsize Hok) as Hi.
  pose proof (chunked_lookup_slice items size groups (S i) Hsize Hok) as HSi.
  fold n in Hi, HSi. unfold slice in Hi.
  replace (i * n + n - i * n)%nat with n in Hi by lia.
  split; [done|].
  intros g Hg. rewrite Hi in Hg. destruct (decide _) as [Hlt|]; [|done].
  injection Hg as <-. rewrite length_take, length_drop.
  split_and!.
  - intros Hnil. apply (f_equal length) in Hnil.
    rewrite length_take, length_drop in Hnil. simpl in Hnil. lia.
  - done.
  - rewrite HSi. destruct (decide _); [lia|]. by intros [??].
Qed.

Lemma chunked_group_by_index_witness :
  ∃ groups,
    chunked ["a.com"; "b.com"; "c.com"] 2 = Ok groups ∧
    groups !! 1%nat = (if decide (1 * Z.to_nat 2 < 3)%nat
                       then Some (take (Z.to_nat 2)
                                    (drop (1 * Z.to_nat 2) ["a.com"; "b.com"; "c.com"]))
                       else None) ∧
    (∀ g, groups !! 1%nat = Some g →
       g ≠ [] ∧
       length g = (Z.to_nat 2 `min` (3 - 1 * Z.to_nat 2))%nat ∧
       (is_Some (groups !! 2%nat) → length g = Z.to_nat 2)).
Proof. apply (chunked_group_by_index ["a.com"; "b.com"; "c.com"] 2 1). lia. Defined.

(** X2. A batch size that is not positive: with size zero the connection
    is opened and [range] raises [ValueError] before anything is sent;
    with a negative size there is no group, nothing is sent or read and
    the run returns an empty store. *)
Theorem nonpositive_batch_size (domains : list string) (batch_size : Z)
    (idle_timeout : positive) (inbox : list arrival) :
  batch_size ≤ 0 →
  let r := query_domains domains batch_size idle_timeout (Some inbox) in
  sent r = [] ∧ points r = [] ∧ unread r = inbox ∧
  returned r = (if decide (batch_size = 0) then Raise ValueError else Ok []).
Proof.
  intros Hsize r. unfold r, query_domains, chunked, py_range.
  destruct (Z.eqb_spec batch_size 0) as [->|Hne]; simpl; [done|].
  destruct (Z.ltb_spec batch_size 0) as [_|?]; [|lia]. simpl.
  by destruct (decide (batch_size = 0)).
Qed.

Lemma nonpositive_batch_size_witness :
  let r := query_domains ["a.com"] 0 5 (Some [Arrival 1 Close]) in
  sent r = [] ∧ points r = [] ∧ unread r = [Arrival 1 Close] ∧
  returned r = (if decide (0 = 0) then Raise ValueError else Ok []).
Proof. apply (nonpositive_batch_size ["a.com"] 0 5 [Arrival 1 Close]). lia. Defined.

(** ** What a run sends (lines 111-121) *)

Lemma domains_of_payload id batch : domains_of (payload id batch) = JStr <$> batch.
Proof. reflexivity. Qed.

Lemma domains_of_requests (f : nat → string) (batches : list (list string)) :
  mjoin (domains_of <$> imap (λ i batch, payload (f i) batch) batches)
  = JStr <$> mjoin batches.
Proof.
  revert f. induction batches as [|b batches IH]; intros f; [done|].
  rewrite imap_cons. simpl. rewrite fmap_app, domains_of_payload. f_equal.
  apply (IH (f ∘ S)).
Qed.

(** The keys of the requests sent are a prefix of the keys of the groups. *)
Lemma run_batches_requests idle_timeout batches c results now inbox :
  let r := run_batches idle_timeout batches c results now inbox [] in
  mjoin (domains_of <$> sent r) `prefix_of` (JStr <$> mjoin batches) ∧
  (ended r = Normal → mjoin (domains_of <$> sent r) = JStr <$> mjoin batches).
Proof.
  simpl.
  destruct (run_batches_sent idle_timeout batches c results now inbox [])
    as (k & _ & Hsent & Hall).
  rewrite Hsent. simpl.
  rewrite (domains_of_requests (λ i, format_06d (c + N.of_nat i))). split.
  - rewrite <- (take_drop k batches) at 2.
    rewrite join_app, fmap_app. by apply prefix_app_r.
  - intros ->%Hall. by rewrite take_ge.
Qed.

(** X3. The requests of a run ask for the input keys in input order, each
    occurrence once: the keys of the requests sent, read one request
    after the other, are a prefix of the input list, and the whole list
    when the run did not fail. *)
Theorem requests_carry_the_input (domains : list string) (batch_size : Z)
    (idle_timeout : positive) (inbox : list arrival) :
  0 < batch_size →
  let r := query_domains domains batch_size idle_timeout (Some inbox) in
  mjoin (domains_of <$> sent r) `prefix_of` (JStr <$> domains) ∧
  (ended r = Normal → mjoin (domains_of <$> sent r) = JStr <$> domains).
Proof.
  intros Hsize r.
  destruct (chunked_join domains batch_size Hsize)
    as (batches & Hok & _ & Hjoin & _).
  unfold r, query_domains. rewrite Hok, <- Hjoin.
  apply run_batches_requests.
Qed.

Lemma requests_carry_the_input_witness :
  let r := query_domains ["a.com"; "b.com"; "c.com"] 2 5 (Some [Arrival 7 Close]) in
  mjoin (domains_of <$> sent r) `prefix_of` (JStr <$> ["a.com"; "b.com"; "c.com"]) ∧
  (ended r = Normal →
   mjoin (domains_of <$> sent r) = JStr <$> ["a.com"; "b.com"; "c.com"]).
Proof.
  apply (requests_carry_the_input ["a.com"; "b.com"; "c.com"] 2 5 [Arrival 7 Close]).
  lia.
Defined.

(** ** A session on which nothing arrives (lines 123-127) *)

Lemma list_to_set_nonempty (batch : list string) :
  batch ≠ [] → (list_to_set batch : gset string) ≠ ∅.
Proof. destruct batch as [|d batch]; [done|]. intros _. set_solver. Qed.

Lemma run_batches_silent_run idle_timeout batches c results now outbox :
  Forall (λ b, b ≠ []) batches →
  let r := run_batches idle_timeout batches c results now [] outbox in
  final_results r = results ∧
  left_pending r = list_to_set <$> batches ∧
  finished_at r = (now + N.of_nat (length batches) * Npos idle_timeout)%N ∧
  unread r = [].
Proof.
  intros Hne. simpl. revert c results now outbox.
  induction Hne as [|batch more Hb _ IH]; intros c results now outbox; simpl.
  - split_and!; try done. lia.
  - destruct (decide (list_to_set batch = (∅ : gset string))) as [He|_].
    { by apply list_to_set_nonempty in He. }
    simpl. destruct (IH (c + 1)%N results (now + Npos idle_timeout)%N
                        (outbox ++ [payload (format_06d c) batch]))
      as (-> & -> & -> & ->).
    split_and!; try done. lia.
Qed.

(** X4. When nothing ever arrives, the run does not fail: every group is
    sent, each receive loop is left by the idle timeout with all the keys
    of its group still pending, the store comes back empty, and the run
    takes one idle timeout per group. *)
Theorem silent_session (domains : list string) (batch_size : Z)
    (idle_timeout : positive) :
  0 < batch_size →
  let r := query_domains domains batch_size idle_timeout (Some []) in
  ∃ batches,
    chunked domains batch_size = Ok batches ∧
    returned r = Ok [] ∧
    length (sent r) = length batches ∧
    left_pending r = list_to_set <$> batches ∧
    finished_at r = (N.of_nat (length batches) * Npos idle_timeout)%N.
Proof.
  intros Hsize r.
  destruct (chunked_join domains batch_size Hsize) as (batches & Hok & _).
  exists batches. split; [done|].
  pose proof (chunked_nonempty domains batch_size batches Hsize Hok) as Hne.
  unfold returned, r, query_domains. rewrite Hok.
  destruct (run_batches_silent_run idle_timeout batches 1 [] 0 [] Hne)
    as (Hres & Hleft & Hfin & _).
  pose proof (run_batches_silent idle_timeout batches 1 [] 0 []) as Hn.
  destruct (run_batches_sent idle_timeout batches 1 [] 0 [] [])
    as (k & _ & Hsent & Hall).
  rewrite Hn, Hres, Hleft, Hfin, Hsent, (Hall Hn). simpl.
  rewrite length_imap, take_ge by lia. split_and!; try done.
Qed.

Lemma silent_session_witness :
  let r := query_domains ["a.com"; "b.com"; "c.com"] 2 5 (Some []) in
  ∃ batches,
    chunked ["a.com"; "b.com"; "c.com"] 2 = Ok batches ∧
    returned r = Ok [] ∧
    length (sent r) = length batches ∧
    left_pending r = list_to_set <$> batches ∧
    finished_at r = (N.of_nat (length batches) * 5)%N.
Proof. apply (silent_session ["a.com"; "b.com"; "c.com"] 2 5). lia. Defined.

(** ** A session that answers every key (lines 112-139) *)

Lemma dict_set_new (d : dict) (s : string) (v : json) :
  s ∉ str_keys d → dict_set d (JStr s) v = d ++ [(JStr s, v)].
Proof.
  induction d as [|[k' v'] d IH]; simpl; [done|].
  rewrite str_keys_cons. intros Hs.
  destruct (py_eq k' (JStr s)) eqn:E.
  - apply py_eq_str in E as ->. set_solver.
  - rewrite IH; [done|]. destruct k'; set_solver.
Qed.

Lemma closed_by_answers domains inbox now :
  Forall2 answers domains inbox → closed_by now inbox = false.
Proof.
  intros H. unfold closed_by. induction H as [|d a ds fs Ha _ IH]; [done|].
  simpl. destruct Ha as (msg & -> & _). done.
Qed.

Lemma timely_app idle_timeout now (l1 l2 : list arrival) :
  timely idle_timeout now (l1 ++ l2) ↔
  timely idle_timeout now l1 ∧
  timely idle_timeout (foldl N.max now (at_time <$> l1)) l2.
Proof.
  revert now. induction l1 as [|a l1 IH]; intros now; simpl; [tauto|].
  rewrite IH. tauto.
Qed.

Section Answered.
Variable idle_timeout : positive.

Abbreviation entry := (λ (d : string) (a : arrival), (JStr d, record_of a)).

Lemma recv_loop_answered group batch frames rest results now :
  NoDup batch →
  Forall2 answers batch frames →
  timely idle_timeout now frames →
  (∀ d, d ∈ batch → d ∉ str_keys results) →
  let x := recv_loop idle_timeout group (list_to_set batch) results now
                     (frames ++ rest) in
  how x = Normal ∧ pending_out x = ∅ ∧
  results_out x = results ++ zip_with entry batch frames ∧
  now_out x = foldl N.max now (at_time <$> frames) ∧
  inbox_out x = rest.
Proof.
  intros Hnd Hall. simpl. revert results now.
  induction Hall as [|d a ds fs Ha _ IH]; intros results now Htimely Hnew.
  - rewrite app_nil_l, app_nil_r. cbn [list_to_set foldr].
    destruct rest; simpl; by destruct (decide (∅ = ∅)).
  - apply NoDup_cons in Hnd as [Hd Hnd].
    destruct Ha as (msg & Hwhat & Hresp). destruct Htimely as [Htime Htimely].
    rewrite <- app_comm_cons. cbn [recv_loop].
    destruct (decide (list_to_set (d :: ds) = (∅ : gset string))) as [He|_].
    { set_solver. }
    assert (in_time idle_timeout now a = true) as ->.
    { unfold in_time. apply N.ltb_lt. exact Htime. }
    rewrite Hwhat, (on_message_response _ _ _ _ results Hresp).
    assert (list_to_set (d :: ds) ∖ {[ d ]} = (list_to_set ds : gset string)) as ->.
    { apply set_eq. intros x. set_solver. }
    rewrite dict_set_new by (apply Hnew; set_solver).
    destruct (IH Hnd (results ++ [(JStr d, record_of a)]) (N.max now (at_time a))
                 Htimely)
      as (H1 & H2 & H3 & H4 & H5).
    { intros d' Hd'. rewrite <- dict_set_new by (apply Hnew; set_solver).
      rewrite str_keys_dict_set_str.
      assert (d' ∉ str_keys results) by (apply Hnew; set_solver). set_solver. }
    simpl. split_and!; try done. by rewrite H3, <- app_assoc.
Qed.

Lemma run_batches_answered batches inbox c results now outbox :
  NoDup (mjoin batches) →
  Forall2 answers (mjoin batches) inbox →
  timely idle_timeout now inbox →
  (∀ d, d ∈ mjoin batches → d ∉ str_keys results) →
  let r := run_batches idle_timeout batches c results now inbox outbox in
  ended r = Normal ∧
  final_results r = results ++ zip_with entry (mjoin batches) inbox ∧
  Forall (λ p, p = ∅) (left_pending r) ∧
  unread r = [] ∧
  finished_at r = foldl N.max now (at_time <$> inbox).
Proof.
  simpl. revert inbox c results now outbox.
  induction batches as [|batch more IH]; intros inbox c results now outbox
    Hnd Hall Htimely Hnew.
  - apply Forall2_nil_inv_l in Hall as ->. simpl.
    by rewrite app_nil_r.
  - simpl in Hnd, Hall, Hnew.
    apply NoDup_app in Hnd as (Hnd1 & Hcross & Hnd2).
    pose proof (closed_by_answers _ _ now Hall) as Hopen.
    apply Forall2_app_inv_l in Hall as (f1 & f2 & Hall1 & Hall2 & ->).
    apply timely_app in Htimely as [Htimely1 Htimely2].
    cbn [run_batches]. unfold send. rewrite Hopen.
    destruct (recv_loop_answered c batch f1 f2 results now Hnd1 Hall1 Htimely1)
      as (H1 & H2 & H3 & H4 & H5).
    { intros d Hd. apply Hnew. set_solver. }
    rewrite H1. rewrite H2, H3, H4, H5.
    destruct (IH f2 (c + 1)%N (results ++ zip_with entry batch f1)
                 (foldl N.max now (at_time <$> f1))
                 (outbox ++ [payload (format_06d c) batch]) Hnd2 Hall2 Htimely2)
      as (G1 & G2 & G3 & G4 & G5).
    { intros d Hd Hin. apply elem_of_str_keys in Hin.
      unfold dict_keys in Hin. rewrite fmap_app, elem_of_app in Hin.
      destruct Hin as [Hin|Hin].
      - apply (Hnew d); [set_solver|]. by apply elem_of_str_keys.
      - apply list_elem_of_fmap in Hin as ([k v] & Hk & Hin). simpl in Hk. subst k.
        apply elem_of_zip_with in Hin as (d' & a' & Heq & Hd' & _).
        injection Heq as Hdd _. subst d'. by apply (Hcross d). }
    simpl. split_and!; try done.
    + rewrite G2, <- app_assoc. f_equal.
      rewrite zip_with_app; [done|]. by eapply Forall2_length.
    + by constructor.
    + by rewrite G5, fmap_app, foldl_app.
Qed.

End Answered.

(** X5. When the session delivers, for each input key in turn, a response
    for that key, each frame in time for the receive that reads it, and
    the input has no repeated key: the run does not fail and returns a
    store that holds exactly the input keys in input order, each with the
    record its response carried; every receive loop is left with an
    empty pending-set, every frame is read, and the run is over at the
    arrival of the last frame, no idle timeout being waited for. *)
Theorem every_key_answered (domains : list string) (batch_size : Z)
    (idle_timeout : positive) (inbox : list arrival) :
  0 < batch_size →
  NoDup domains →
  Forall2 answers domains inbox →
  timely idle_timeout 0 inbox →
  let r := query_domains domains batch_size idle_timeout (Some inbox) in
  returned r = Ok (zip_with (λ d a, (JStr d, record_of a)) domains inbox) ∧
  Forall (λ p, p = ∅) (left_pending r) ∧
  unread r = [] ∧
  finished_at r = foldl N.max 0%N (at_time <$> inbox).
Proof.
  intros Hsize Hnd Hall Htimely r.
  destruct (chunked_join domains batch_size Hsize)
    as (batches & Hok & _ & Hjoin & _).
  unfold returned, r, query_domains. rewrite Hok. rewrite <- Hjoin in *.
  destruct (run_batches_answered idle_timeout batches inbox 1 [] 0 [] Hnd Hall
              Htimely)
    as (H1 & H2 & H3 & H4 & H5).
  { intros d _. unfold str_keys. simpl. set_solver. }
  rewrite H1, H2. by split_and!.
Qed.

Lemma every_key_answered_witness :
  let response name available :=
    Data (Decoded (JObj [("type", JStr "domainStatusResponse");
                         ("data", JObj [("name", JStr name);
                                        ("available", JBool available)])])) in
  let inbox := [Arrival 1 (response "a.com" true); Arrival 4 (response "b.com" false);
                Arrival 8 (response "c.com" true)] in
  let r := query_domains ["a.com"; "b.com"; "c.com"] 2 5 (Some inbox) in
  returned r
  = Ok (zip_with (λ d a, (JStr d, record_of a)) ["a.com"; "b.com"; "c.com"] inbox) ∧
  Forall (λ p, p = ∅) (left_pending r) ∧
  unread r = [] ∧
  finished_at r = foldl N.max 0%N (at_time <$> inbox).
Proof.
  intros response inbox.
  apply (every_key_answered ["a.com"; "b.com"; "c.com"] 2 5 inbox).
  - lia.
  - apply (bool_decide_unpack _). vm_compute. exact I.
  - repeat constructor;
      (eexists; split; [reflexivity|]; eexists _, _;
       split_and!; try reflexivity; discriminate).
  - simpl. unfold deadline. lia.
Defined.

(** ** Messages that end the run, messages that are skipped (lines 128-139) *)

Lemma run_batches_raise idle_timeout batch more c results now a rest outbox msg e :
  batch ≠ [] →
  closed_by now (a :: rest) = false →
  in_time idle_timeout now a = true →
  what a = Data msg →
  on_message msg (list_to_set batch) results = Raise e →
  let r := run_batches idle_timeout (batch :: more) c results now (a :: rest) outbox in
  returned r = Raise e ∧
  sent r = outbox ++ [payload (format_06d c) batch] ∧
  left_pending r = [] ∧
  unread r = rest.
Proof.
  intros Hne Hopen Htime Hwhat Hmsg. unfold returned. cbn [run_batches].
  unfold send. rewrite Hopen. cbn [recv_loop].
  destruct (decide (list_to_set batch = (∅ : gset string))) as [He|_].
  { by apply list_to_set_nonempty in He. }
  rewrite Htime, Hwhat, Hmsg. done.
Qed.

(** X6. Only [JSONDecodeError] is caught: a frame that decodes to a JSON
    value other than an object (a list, a string, a number, [true],
    [null]), read while keys are pending, ends the run with
    [AttributeError].  Nothing is returned, the store built so far
    included, and the groups that follow are never sent. *)
Theorem non_object_frame_ends_run (idle_timeout : positive)
    (batch : list string) (more : list (list string)) (c : N) (results : dict)
    (now : N) (a : arrival) (rest : list arrival) (outbox : list json)
    (data : json) :
  batch ≠ [] →
  closed_by now (a :: rest) = false →
  in_time idle_timeout now a = true →
  what a = Data (Decoded data) →
  (∀ items, data ≠ JObj items) →
  let r := run_batches idle_timeout (batch :: more) c results now (a :: rest) outbox in
  returned r = Raise AttributeError ∧
  sent r = outbox ++ [payload (format_06d c) batch] ∧
  left_pending r = [] ∧
  unread r = rest.
Proof.
  intros Hne Hopen Htime Hwhat Hdata.
  apply (run_batches_raise _ _ _ _ _ _ _ _ _ (Decoded data)); try done.
  unfold on_message, response_of. destruct data; try done. by destruct (Hdata items).
Qed.

Lemma non_object_frame_ends_run_witness :
  let a := Arrival 2 (Data (Decoded (JArr [JStr "a.com"]))) in
  let r := run_batches 5 [["a.com"]; ["b.com"]] 1 [] 0 [a] [] in
  returned r = Raise AttributeError ∧
  sent r = [] ++ [payload (format_06d 1) ["a.com"]] ∧
  left_pending r = [] ∧
  unread r = [].
Proof.
  apply (non_object_frame_ends_run 5 ["a.com"] [["b.com"]] 1 [] 0
           (Arrival 2 (Data (Decoded (JArr [JStr "a.com"])))) [] []
           (JArr [JStr "a.com"])); try reflexivity; discriminate.
Defined.

(** X7. A response whose name is a non-empty list or object cannot be a
    dict key: [results[name] = resp] raises [TypeError], which ends the
    run as above; so does, with [AttributeError], a response whose [data]
    is true-ish without being an object. *)
Theorem unusable_response_ends_run (idle_timeout : positive)
    (batch : list string) (more : list (list string)) (c : N) (results : dict)
    (now : N) (a : arrival) (rest : list arrival) (outbox : list json)
    (items : list (string * json)) (data : json) (e : exn) :
  batch ≠ [] →
  closed_by now (a :: rest) = false →
  in_time idle_timeout now a = true →
  what a = Data (Decoded (JObj items)) →
  items_get items "type" = Some (JStr "domainStatusResponse") →
  items_get items "data" = Some data →
  truthy data = true →
  match data with
  | JObj fields =>
      ∃ name, items_get fields "name" = Some name ∧ truthy name = true ∧
              hashable name = false ∧ e = TypeError
  | _ => e = AttributeError
  end →
  let r := run_batches idle_timeout (batch :: more) c results now (a :: rest) outbox in
  returned r = Raise e ∧
  sent r = outbox ++ [payload (format_06d c) batch] ∧
  left_pending r = [] ∧
  unread r = rest.
Proof.
  intros Hne Hopen Htime Hwhat Hty Hdata Htrue He.
  apply (run_batches_raise _ _ _ _ _ _ _ _ _ (Decoded (JObj items))); try done.
  unfold on_message, response_of. simpl. rewrite Hty, Hdata. simpl.
  unfold py_or. rewrite Htrue.
  destruct data; simpl; try by subst e.
  destruct He as (name & -> & Hname & Hhash & ->). simpl.
  rewrite Hname. simpl. unfold dict_setitem. by rewrite Hhash.
Qed.

Lemma unusable_response_ends_run_witness :
  let items := [("type", JStr "domainStatusResponse");
                ("data", JObj [("name", JArr [JStr "a.com"])])] in
  let a := Arrival 2 (Data (Decoded (JObj items))) in
  let r := run_batches 5 [["a.com"]; ["b.com"]] 1 [] 0 [a] [] in
  returned r = Raise TypeError ∧
  sent r = [] ++ [payload (format_06d 1) ["a.com"]] ∧
  left_pending r = [] ∧
  unread r = [].
Proof.
  intros items a.
  apply (unusable_response_ends_run 5 ["a.com"] [["b.com"]] 1 [] 0 a [] [] items
           (JObj [("name", JArr [JStr "a.com"])]) TypeError);
    try reflexivity; try discriminate.
  eexists. by split_and!.
Defined.

(** X8. What the loop skips: an object of another type (or of none),
    whatever else it holds; a response whose [data] is absent or false-ish
    ([null], an empty object, list or string, zero, [false]); a response
    whose [data] is an object without a name, or with a false-ish one.
    None of them raises, and the pending-set and the store stay as they
    are. *)
Theorem other_messages_skipped (items : list (string * json))
    (pending : gset string) (results : dict) :
  items_get items "type" ≠ Some (JStr "domainStatusResponse")
  ∨ truthy (default JNull (items_get items "data")) = false
  ∨ (∃ fields, items_get items "data" = Some (JObj fields) ∧
               truthy (default JNull (items_get fields "name")) = false) →
  on_message (Decoded (JObj items)) pending results = Ok (pending, results).
Proof.
  intros H. unfold on_message, response_of. simpl.
  destruct (py_eq (default JNull (items_get items "type"))
                  (JStr "domainStatusResponse")) eqn:Hty; simpl; [|done].
  apply py_eq_str in Hty.
  destruct H as [H|[H|(fields & Hdata & Hname)]].
  - destruct (items_get items "type"); simpl in Hty; [|done]. by subst.
  - unfold py_or. rewrite H. simpl. done.
  - rewrite Hdata. simpl. unfold py_or.
    destruct fields as [|f fields]; simpl; [done|].
    simpl in Hname. by rewrite Hname.
Qed.

Lemma other_messages_skipped_witness :
  on_message (Decoded (JObj [("type", JStr "domainStatusResponse");
                             ("data", JObj [("available", JBool true)])]))
             {[ "a.com" ]} []
  = Ok ({[ "a.com" ]}, []).
Proof.
  apply other_messages_skipped. right. right. eexists. by split.
Defined.

(** ** Repeated responses (line 138) *)

Lemma dict_set_keys_old (d : dict) (s : string) (v : json) :
  s ∈ str_keys d → dict_keys (dict_set d (JStr s) v) = dict_keys d.
Proof.
  induction d as [|[k' v'] d IH]; simpl.
  - unfold str_keys. simpl. set_solver.
  - rewrite str_keys_cons. intros Hs.
    destruct (py_eq k' (JStr s)) eqn:E; [done|].
    rewrite !dict_keys_cons, IH; [done|].
    destruct k'; try done.
    apply elem_of_union in Hs as [Hs|Hs]; [|done].
    apply elem_of_singleton in Hs as ->. simpl in E.
    by rewrite String.eqb_refl in E.
Qed.

(** X9. The latest response wins: when a second response for a key
    follows a first, the store keeps one entry for the key, at the place
    the first response gave it, holding the record of the second; the
    other entries and the pending-set are as the first response left
    them. *)
Theorem latest_response_wins (msg1 msg2 : message) (name : string)
    (record1 record2 : json) (pending : gset string) (results : dict) :
  is_response msg1 name record1 →
  is_response msg2 name record2 →
  ∃ pending1 results1 results2,
    on_message msg1 pending results = Ok (pending1, results1) ∧
    on_message msg2 pending1 results1 = Ok (pending1, results2) ∧
    dict_keys results2 = dict_keys results1 ∧
    dict_lookup results2 name = Some record2 ∧
    (∀ other, other ≠ name →
       dict_lookup results2 other = dict_lookup results other).
Proof.
  intros H1 H2.
  exists (pending ∖ {[ name ]}), (dict_set results (JStr name) record1),
    (dict_set (dict_set results (JStr name) record1) (JStr name) record2).
  split_and!.
  - by apply on_message_response.
  - rewrite (on_message_response _ _ _ _ _ H2). do 2 f_equal. set_solver.
  - apply dict_set_keys_old. rewrite str_keys_dict_set_str. set_solver.
  - apply dict_lookup_set_eq.
  - intros other Hother. rewrite !dict_lookup_set_ne by congruence. done.
Qed.

Lemma latest_response_wins_witness :
  let response available :=
    Decoded (JObj [("type", JStr "domainStatusResponse");
                   ("data", JObj [("name", JStr "a.com");
                                  ("available", JBool available)])]) in
  let record available :=
    JObj [("name", JStr "a.com"); ("available", JBool available)] in
  ∃ pending1 results1 results2,
    on_message (response false) {[ "a.com"; "b.com" ]} [] = Ok (pending1, results1) ∧
    on_message (response true) pending1 results1 = Ok (pending1, results2) ∧
    dict_keys results2 = dict_keys results1 ∧
    dict_lookup results2 "a.com" = Some (record true) ∧
    (∀ other, other ≠ "a.com" → dict_lookup results2 other = dict_lookup [] other).
Proof.
  intros response record.
  apply (latest_response_wins (response false) (response true) "a.com"
           (record false) (record true) {[ "a.com"; "b.com" ]} []);
    (eexists _, _; split_and!; try reflexivity; discriminate).
Defined.

(** ** What holds of the store throughout a run (line 138) *)

Section StoreInvariant.
Variable P : dict → Prop.
Hypothesis P_set : ∀ d msg name resp,
  P d → response_of msg = Ok (Some (name, resp)) → hashable name = true →
  P (dict_set d name resp).

Lemma recv_loop_store idle_timeout group pending results now inbox :
  P results →
  let x := recv_loop idle_timeout group pending results now inbox in
  Forall (λ s, P (results_now s)) (visited x) ∧ P (results_out x).
Proof.
  simpl. revert pending results now inbox.
  apply (recv_loop_ind idle_timeout group
    (λ pending results now inbox x,
       P results →
       Forall (λ s, P (results_now s)) (visited x) ∧ P (results_out x))); simpl;
    try (intros; split; [by apply Forall_singleton|done]).
  intros pending results now a rest msg pending' results' _ _ _ Hmsg IH HP.
  assert (P results') as HP'.
  { apply on_message_cases in Hmsg as [[_ ->]|(name & resp & Hresp & Hh & _ & ->)];
      [done|by eapply P_set]. }
  destruct (IH HP') as [IHall IHout]. split; [|done].
  by do 2 (apply Forall_cons; split; [done|]).
Qed.

Lemma run_batches_store idle_timeout batches c results now inbox outbox :
  P results →
  let r := run_batches idle_timeout batches c results now inbox outbox in
  Forall (λ s, P (results_now s)) (points r) ∧ P (final_results r).
Proof.
  simpl. revert c results now inbox outbox.
  induction batches as [|batch more IH]; intros c results now inbox outbox HP;
    simpl; [by split|].
  destruct (send now inbox outbox _) as [outbox'|e]; simpl; [|by split].
  destruct (recv_loop_store idle_timeout c (list_to_set batch) results now inbox HP)
    as [Hall Hout].
  destruct (how _) as [|e]; simpl; [|by split].
  destruct (IH (c + 1)%N _ (now_out (recv_loop idle_timeout c (list_to_set batch)
                                       results now inbox))
               (inbox_out (recv_loop idle_timeout c (list_to_set batch)
                                     results now inbox)) outbox' Hout)
    as [IHall IHout].
  split; [|done]. by apply Forall_app.
Qed.

Lemma query_domains_store domains batch_size idle_timeout session :
  P [] →
  let r := query_domains domains batch_size idle_timeout session in
  Forall (λ s, P (results_now s)) (points r) ∧ P (final_results r).
Proof.
  intros HP. simpl. unfold query_domains.
  destruct session as [inbox|]; [|by split].
  destruct (chunked domains batch_size) as [batches|e]; [|by split].
  by apply run_batches_store.
Qed.

End StoreInvariant.

Lemma dict_set_distinct_keys (d : dict) (k v : json) :
  distinct_keys (dict_keys d) → distinct_keys (dict_keys (dict_set d k v)).
Proof.
  induction d as [|[k' v'] d IH]; simpl; [done|].
  intros [Hk' Hd]. destruct (py_eq k' k) eqn:E; simpl; [done|].
  split; [|by apply IH].
  destruct (dict_set_keys d k v) as [->| ->]; [done|].
  apply Forall_app. split; [done|]. by apply Forall_singleton.
Qed.

Lemma distinct_keys_NoDup (names : list string) :
  distinct_keys (JStr <$> names) → NoDup names.
Proof.
  induction names as [|s names IH]; simpl; [constructor|].
  intros [Hs Hnames]. constructor; [|by apply IH].
  intros Hin. rewrite Forall_fmap, Forall_forall in Hs.
  specialize (Hs s Hin). simpl in Hs. by rewrite String.eqb_refl in Hs.
Qed.

(** X10. The store never holds two entries under equal keys, at any point
    of a run and at its end, where equal is Python's [==] on keys (so
    that [1], [1.0] and [True] are one key); when its keys are all text,
    no key occurs twice. *)
Theorem store_keys_distinct (domains : list string) (batch_size : Z)
    (idle_timeout : positive) (session : option (list arrival)) :
  let r := query_domains domains batch_size idle_timeout session in
  Forall (λ s, distinct_keys (dict_keys (results_now s))) (points r) ∧
  distinct_keys (dict_keys (final_results r)) ∧
  (∀ names, all_str (dict_keys (final_results r)) = Some names → NoDup names).
Proof.
  intros r.
  destruct (query_domains_store (λ d, distinct_keys (dict_keys d))
              (λ d _ name resp Hd _ _, dict_set_distinct_keys d name resp Hd)
              domains batch_size idle_timeout session I) as [Hpts Hfin].
  split_and!; [done|done|].
  intros names Hnames. apply all_str_keys in Hnames.
  fold r in Hfin. rewrite Hnames in Hfin. by apply distinct_keys_NoDup.
Qed.

Lemma response_of_record msg name resp :
  response_of msg = Ok (Some (name, resp)) →
  ∃ fields, resp = JObj fields ∧ items_get fields "name" = Some name.
Proof.
  unfold response_of. destruct msg as [data| |]; [|done..].
  destruct data as [| | | | | |items]; try done. simpl.
  destruct (py_eq _ _); simpl; [|done].
  unfold py_or. destruct (truthy (default JNull (items_get items "data"))) eqn:Ht.
  - destruct (default JNull (items_get items "data")) as [| | | | | |fields];
      try done. simpl.
    destruct (items_get fields "name") as [n|] eqn:Hn; simpl; [|done].
    destruct (truthy n); simpl; [|done]. intros [= <- <-]. eauto.
  - done.
Qed.

Lemma dict_set_named_records (d : dict) (name resp : json) (fields : list (string * json)) :
  resp = JObj fields → items_get fields "name" = Some name →
  Forall named_record d → Forall named_record (dict_set d name resp).
Proof.
  intros -> Hname. induction d as [|[k' v'] d IH]; simpl.
  - intros _. apply Forall_singleton. exists fields, name. by split_and!; [..|left].
  - intros [Hk' Hd]%Forall_cons. destruct (py_eq k' name) eqn:E.
    + apply Forall_cons. split; [|done].
      exists fields, name. by split_and!; [..|right].
    + apply Forall_cons. split; [done|]. by apply IH.
Qed.

Lemma append_csv_normal (results : dict) (output : option (list row))
    (names : list string) :
  all_str (dict_keys results) = Some names →
  Forall named_record results →
  (append_csv results output).2 = Normal.
Proof.
  intros Hnames Hrecords. unfold append_csv. rewrite Hnames.
  rewrite write_rows_ok; [done|].
  apply Forall_forall. intros k Hk.
  destruct (sorted_spec names) as [_ Hperm]. rewrite Hperm in Hk.
  assert (is_Some (dict_lookup results k)) as [v Hv].
  { apply dict_lookup_is_Some, elem_of_str_keys.
    apply all_str_keys in Hnames. rewrite Hnames. by apply list_elem_of_fmap_2. }
  destruct (dict_lookup_Some _ _ _ Hv) as [k' Hin].
  rewrite Forall_forall in Hrecords.
  destruct (Hrecords _ Hin) as (fields & _ & Hf & _). simpl in Hf. subst v. eauto.
Qed.

(** X11. What a run hands to [append_csv]: every record of the store is
    an object that carries a name, and its key is the name it was first
    stored under.  So, when the keys are all text, [append_csv] writes the
    returned store without raising: no record lacks [.get], no key is
    missing. *)
Theorem returned_store_is_written (domains : list string) (batch_size : Z)
    (idle_timeout : positive) (session : option (list arrival))
    (output : option (list row)) (names : list string) :
  let r := query_domains domains batch_size idle_timeout session in
  all_str (dict_keys (final_results r)) = Some names →
  Forall named_record (final_results r) ∧
  (append_csv (final_results r) output).2 = Normal.
Proof.
  intros r Hnames.
  assert (Forall named_record (final_results r)) as Hrecords.
  { apply (query_domains_store (Forall named_record)); [|constructor].
    intros d msg name resp Hd Hresp _.
    destruct (response_of_record _ _ _ Hresp) as (fields & Hf & Hname).
    by eapply dict_set_named_records. }
  split; [done|]. by eapply append_csv_normal.
Qed.

Lemma returned_store_is_written_witness :
  let response name :=
    Data (Decoded (JObj [("type", JStr "domainStatusResponse");
                         ("data", JObj [("name", JStr name);
                                        ("available", JBool true)])])) in
  let inbox := [Arrival 1 (response "b.com"); Arrival 2 (response "a.com")] in
  let r := query_domains ["a.com"; "b.com"] 2 5 (Some inbox) in
  Forall named_record (final_results r) ∧
  (append_csv (final_results r) None).2 = Normal.
Proof.
  intros response inbox.
  apply (returned_store_is_written ["a.com"; "b.com"] 2 5 (Some inbox) None
           ["b.com"; "a.com"]).
  reflexivity.
Defined.

(** ** The output file (lines 144-159) *)

Lemma write_rows_appends (results : dict) (keys : list string) (file : list row) :
  ∃ rows,
    (write_rows results keys file).1 = file ++ rows ∧
    Forall (λ r, r ≠ header) rows ∧
    (length rows ≤ length keys)%nat.
Proof.
  revert file. induction keys as [|k keys IH]; intros file; simpl.
  - exists []. by rewrite app_nil_r.
  - destruct (dict_lookup results k) as [resp|]; simpl.
    2:{ exists []. rewrite app_nil_r. split_and!; [done|done|simpl; lia]. }
    destruct (py_get resp "available") as [available|]; simpl.
    2:{ exists []. rewrite app_nil_r. split_and!; [done|done|simpl; lia]. }
    destruct (py_get resp "lookupType") as [lookupType|]; simpl.
    2:{ exists []. rewrite app_nil_r. split_and!; [done|done|simpl; lia]. }
    destruct (py_get resp "extra") as [extra|]; simpl.
    2:{ exists []. rewrite app_nil_r. split_and!; [done|done|simpl; lia]. }
    destruct (IH (file ++ [[Value (JStr k); Value available; Value lookupType;
                            CompactJson extra]])) as (rows & Hrows & Hne & Hlen).
    eexists (_ :: rows). rewrite Hrows, <- app_assoc. split_and!.
    + done.
    + apply Forall_cons. split; [discriminate|done].
    + simpl. lia.
Qed.

Lemma append_csv_appends (results : dict) (output : option (list row)) :
  ∃ rows,
    (append_csv results output).1
    = default [] output ++ (if needs_header output then [header] else []) ++ rows ∧
    Forall (λ r, r ≠ header) rows.
Proof.
  unfold append_csv. destruct (all_str (dict_keys results)) as [keys|]; simpl.
  - destruct (write_rows_appends results (sorted keys)
                (default [] output ++ (if needs_header output then [header] else [])))
      as (rows & Hrows & Hne & _).
    exists rows. by rewrite Hrows, <- app_assoc.
  - exists []. by rewrite app_nil_r.
Qed.

(** X12. The header is written at most once.  For stores whose keys are
    text, whatever their records and whether or not a call raises:
    [append_csv] never leaves the file absent or empty, the rows it
    appends after the header are never the header row, the rows that were
    in the file stay in place, and a second call on the same file appends
    no header. *)
Theorem header_written_once (results1 results2 : dict)
    (output : option (list row)) (names1 names2 : list string) :
  all_str (dict_keys results1) = Some names1 →
  all_str (dict_keys results2) = Some names2 →
  let file1 := (append_csv results1 output).1 in
  let file2 := (append_csv results2 (Some file1)).1 in
  needs_header (Some file1) = false ∧
  ∃ rows1 rows2,
    file1 = default [] output
            ++ (if needs_header output then [header] else []) ++ rows1 ∧
    file2 = file1 ++ rows2 ∧
    (header ∉ rows1) ∧ (header ∉ rows2).
Proof.
  intros _ _ file1 file2.
  destruct (append_csv_appends results1 output) as (rows1 & H1 & Hne1).
  destruct (append_csv_appends results2 (Some file1)) as (rows2 & H2 & Hne2).
  fold file1 in H1. fold file2 in H2.
  assert (needs_header (Some file1) = false) as Hfull.
  { rewrite H1. by destruct output as [[|r rs]|]. }
  split; [done|]. exists rows1, rows2.
  rewrite Hfull in H2. simpl in H2.
  split_and!; [done|done|..].
  - intros Hin. rewrite Forall_forall in Hne1. by apply (Hne1 _ Hin).
  - intros Hin. rewrite Forall_forall in Hne2. by apply (Hne2 _ Hin).
Qed.

Lemma header_written_once_witness :
  let results1 := [(JStr "b.com", JObj [("name", JStr "b.com")])] in
  let results2 := [(JStr "a.com", JStr "no record")] in
  let output : option (list row) := None in
  let file1 := (append_csv results1 output).1 in
  let file2 := (append_csv results2 (Some file1)).1 in
  needs_header (Some file1) = false ∧
  ∃ rows1 rows2,
    file1 = default [] output
            ++ (if needs_header output then [header] else []) ++ rows1 ∧
    file2 = file1 ++ rows2 ∧
    (header ∉ rows1) ∧ (header ∉ rows2).
Proof.
  intros results1 results2 output.
  apply (header_written_once results1 results2 output ["b.com"] ["a.com"]);
    reflexivity.
Defined.

(** ** The loop of main (lines 214-233) *)

Lemma query_domains_requested domains batch_size idle_timeout session k :
  JStr k ∈ mjoin (domains_of <$>
                    sent (query_domains domains batch_size idle_timeout session)) →
  k ∈ domains.
Proof.
  unfold query_domains. destruct session as [inbox|]; [|by intros ?%elem_of_nil].
  destruct (decide (0 < batch_size)) as [Hsize|Hsize].
  - destruct (chunked_join domains batch_size Hsize)
      as (batches & Hok & _ & Hjoin & _).
    rewrite Hok.
    destruct (run_batches_requests idle_timeout batches 1 [] 0 inbox)
      as [[rest Hrest] _].
    rewrite Hjoin in Hrest. intros Hin.
    assert (JStr k ∈ JStr <$> domains) as Hk.
    { rewrite Hrest. apply elem_of_app. by left. }
    apply list_elem_of_fmap in Hk as (k' & [= ->] & Hk'). done.
  - unfold chunked, py_range.
    destruct (Z.eqb_spec batch_size 0); [by intros ?%elem_of_nil|].
    destruct (Z.ltb_spec batch_size 0); [|lia].
    by intros ?%elem_of_nil.
Qed.

Section MainLoop.
Variable strip lower : string → string.

(** X13. As long as every store that comes back has text keys, [main]
    only ever adds: the rows that were in the output file stay in place
    in front of what is appended, the resume-set keeps its keys, there is
    at most one call of [query_domains] per base, and when the loop ends
    normally the resume-set holds exactly its old keys and the keys of
    the stores that came back. *)
Theorem main_loop_appends_only (bases tlds : list string) (use_tlds : bool)
    (batch_size : Z) (idle_timeout : positive) (existing : gset string)
    (out : option (list row)) (sessions : list (option (list arrival))) :
  let x := main_loop strip lower bases tlds use_tlds batch_size idle_timeout
                     existing out sessions in
  Forall text_keyed (runs x) →
  default [] out `prefix_of` default [] (file_out x) ∧
  existing ⊆ existing_out x ∧
  (length (runs x) ≤ length bases)%nat ∧
  (main_ended x = Normal →
     ∀ k, k ∈ existing_out x ↔
          k ∈ existing ∨ ∃ r, r ∈ runs x ∧ k ∈ str_keys (final_results r)).
Proof.
  simpl. intros _. revert existing out sessions.
  induction bases as [|base more IH]; intros existing out sessions.
  { simpl. split_and!; [done|done|done|]. intros _ k. set_solver. }
  cbn [main_loop].
  destruct (build_domains strip lower [base] tlds use_tlds) as [|d ds].
  { destruct (IH existing out sessions) as (H1 & H2 & H3 & H4).
    split_and!; [done|done|simpl; lia|done]. }
  destruct (decide (list_to_set (d :: ds) ⊆ existing)) as [_|_].
  { destruct (IH existing out sessions) as (H1 & H2 & H3 & H4).
    split_and!; [done|done|simpl; lia|done]. }
  set (r := query_domains (filter (λ d, d ∉ existing) (d :: ds)) batch_size
              idle_timeout (mjoin (head sessions))).
  destruct (ended r) as [|e]; simpl.
  2:{ split_and!; [done|done|lia|done]. }
  destruct (append_csv_appends (final_results r) out) as (rows & Hfile & _).
  destruct (append_csv (final_results r) out) as [file st]. simpl in Hfile.
  assert (default [] out `prefix_of` file) as Hprefix.
  { rewrite Hfile. by apply prefix_app_r. }
  destruct st as [|e]; simpl.
  2:{ split_and!; [done|done|lia|done]. }
  destruct (IH (existing ∪ str_keys (final_results r)) (Some file) (tail sessions))
    as (H1 & H2 & H3 & H4).
  split_and!.
  - by etransitivity.
  - set_solver.
  - lia.
  - intros Hn k. rewrite (H4 Hn k). split.
    + intros [[Hk|Hk]%elem_of_union|(r' & Hr' & Hk)].
      * by left.
      * right. exists r. split; [by left|done].
      * right. exists r'. split; [by right|done].
    + intros [Hk|(r' & Hr' & Hk)].
      * left. set_solver.
      * apply elem_of_cons in Hr' as [->|Hr'].
        -- left. set_solver.
        -- right. by exists r'.
Qed.

(** X14. As long as every store that comes back has text keys, [main]
    never asks for a key again: no request of any run names a key of the
    resume-set, and no request of a later run names a key that the store
    of an earlier run came back with. *)
Theorem main_loop_requests_are_new (bases tlds : list string) (use_tlds : bool)
    (batch_size : Z) (idle_timeout : positive) (existing : gset string)
    (out : option (list row)) (sessions : list (option (list arrival))) :
  let x := main_loop strip lower bases tlds use_tlds batch_size idle_timeout
                     existing out sessions in
  Forall text_keyed (runs x) →
  Forall (λ r, ∀ k, JStr k ∈ mjoin (domains_of <$> sent r) → k ∉ existing)
         (runs x) ∧
  (∀ i j ri rj k,
     runs x !! i = Some ri → runs x !! j = Some rj → (i < j)%nat →
     k ∈ str_keys (final_results ri) →
     JStr k ∉ mjoin (domains_of <$> sent rj)).
Proof.
  simpl. intros _. revert existing out sessions.
  induction bases as [|base more IH]; intros existing out sessions.
  { simpl. split; [constructor|]. intros i j ri rj k Hi. by destruct i. }
  cbn [main_loop].
  destruct (build_domains strip lower [base] tlds use_tlds) as [|d ds]; [apply IH|].
  destruct (decide (list_to_set (d :: ds) ⊆ existing)) as [_|_]; [apply IH|].
  set (r := query_domains (filter (λ d, d ∉ existing) (d :: ds)) batch_size
              idle_timeout (mjoin (head sessions))).
  assert (∀ k, JStr k ∈ mjoin (domains_of <$> sent r) → k ∉ existing) as Hr.
  { intros k Hk%query_domains_requested.
    by apply list_elem_of_filter in Hk as [Hk _]. }
  assert (∀ i j ri rj k, [r] !! i = Some ri → [r] !! j = Some rj → (i < j)%nat →
            k ∈ str_keys (final_results ri) →
            JStr k ∉ mjoin (domains_of <$> sent rj)) as Hone.
  { intros [|i] [|j] ri rj k Hi Hj Hij; simpl in *; try lia; done. }
  destruct (ended r) as [|e]; simpl.
  2:{ split; [by apply Forall_singleton|done]. }
  destruct (append_csv (final_results r) out) as [file [|e]]; simpl.
  2:{ split; [by apply Forall_singleton|done]. }
  destruct (IH (existing ∪ str_keys (final_results r)) (Some file) (tail sessions))
    as [IHall IHpairs].
  split.
  - apply Forall_cons. split; [done|].
    eapply Forall_impl; [exact IHall|]. simpl. intros r' Hr' k Hk.
    specialize (Hr' k Hk). set_solver.
  - intros [|i] [|j] ri rj k Hi Hj Hij Hk; simpl in *; try lia.
    + injection Hi as <-. intros Hin.
      rewrite Forall_forall in IHall.
      apply list_elem_of_lookup_2 in Hj.
      specialize (IHall rj Hj k Hin). set_solver.
    + apply (IHpairs i j ri rj k); [done|done|lia|done].
Qed.

End MainLoop.

Lemma main_loop_appends_only_witness :
  let response name :=
    Data (Decoded (JObj [("type", JStr "domainStatusResponse");
                         ("data", JObj [("name", JStr name);
                                        ("available", JBool true)])])) in
  let sessions := [Some [Arrival 1 (response "example.com")];
                   Some [Arrival 2 (response "sample.com")]] in
  let out := Some [header] in
  let x := main_loop id id ["example.com"; "sample.com"] [] false 50 5 ∅ out
                     sessions in
  default [] out `prefix_of` default [] (file_out x) ∧
  ∅ ⊆ existing_out x ∧
  (length (runs x) ≤ 2)%nat ∧
  (main_ended x = Normal →
     ∀ k, k ∈ existing_out x ↔
          k ∈ (∅ : gset string) ∨ ∃ r, r ∈ runs x ∧ k ∈ str_keys (final_results r)).
Proof.
  intros response sessions out.
  apply (main_loop_appends_only id id ["example.com"; "sample.com"] [] false 50 5
           ∅ out sessions).
  repeat constructor; intros _; by eexists.
Defined.

Lemma main_loop_requests_are_new_witness :
  let response name :=
    Data (Decoded (JObj [("type", JStr "domainStatusResponse");
                         ("data", JObj [("name", JStr name);
                                        ("available", JBool true)])])) in
  let sessions := [Some [Arrival 1 (response "example.com");
                         Arrival 2 (response "sample.com")];
                   Some []] in
  let x := main_loop id id ["example.com"; "sample.com"; "third.com"] [] false
                     50 5 {[ "old.com" ]} None sessions in
  Forall (λ r, ∀ k, JStr k ∈ mjoin (domains_of <$> sent r) →
                    k ∉ ({[ "old.com" ]} : gset string))
         (runs x) ∧
  (∀ i j ri rj k,
     runs x !! i = Some ri → runs x !! j = Some rj → (i < j)%nat →
     k ∈ str_keys (final_results ri) →
     JStr k ∉ mjoin (domains_of <$> sent rj)).
Proof.
  intros response sessions.
  apply (main_loop_requests_are_new id id ["example.com"; "sample.com"; "third.com"]
           [] false 50 5 {[ "old.com" ]} None sessions).
  repeat constructor; intros _; by eexists.
Defined.

(** ** build_domains and the loaders (lines 43-92, 203-210) *)

Lemma nonempty_true (s : string) : nonempty s = true ↔ s ≠ "".
Proof. unfold nonempty. by destruct (String.eqb_spec s ""). Qed.

Section Inputs.
Variable strip lower : string → string.

(** X15. With TLDs, [build_domains] yields, base by base, one domain
    [base.tld] per TLD for every base that is not blank once stripped and
    lower-cased, the TLD lower-cased too: these and no others, their
    number being the number of such bases times the number of TLDs. *)
Theorem build_domains_with_tlds (bases tlds : list string) :
  (∀ d, d ∈ build_domains strip lower bases tlds true ↔
        ∃ b t, b ∈ bases ∧ t ∈ tlds ∧ lower (strip b) ≠ "" ∧
               d = lower (strip b) +:+ "." +:+ lower t) ∧
  length (build_domains strip lower bases tlds true)
  = (length (filter (λ b, lower (strip b) ≠ "") bases) * length tlds)%nat.
Proof.
  unfold build_domains. simpl. split.
  - intros d. rewrite list_elem_of_bind. split.
    + intros (b & Hd & Hb).
      destruct (nonempty (lower (strip b))) eqn:Hne; simpl in Hd.
      * apply list_elem_of_fmap in Hd as (t & -> & Ht).
        exists b, t. split_and!; try done. by apply nonempty_true.
      * by apply elem_of_nil in Hd.
    + intros (b & t & Hb & Ht & Hne & ->). exists b. split; [|done].
      apply nonempty_true in Hne. rewrite Hne. simpl.
      by apply (list_elem_of_fmap_2 (λ tld, lower (strip b) +:+ "." +:+ lower tld)).
  - induction bases as [|b bases IH]; [done|].
    rewrite bind_cons, length_app, IH, filter_cons.
    destruct (nonempty (lower (strip b))) eqn:Hne; simpl.
    + apply nonempty_true in Hne. rewrite decide_True by done.
      simpl. by rewrite length_fmap.
    + rewrite decide_False; [done|]. intros Hb%nonempty_true. congruence.
Qed.

(** X16. Every base that [load_bases] returns yields its domains: when
    stripping twice is stripping once and lower-casing never empties a
    text, [build_domains] drops none of the loaded bases, giving one
    domain per base without TLDs and one per base and TLD with them. *)
Theorem loaded_bases_all_build (lines tlds : list string) :
  (∀ s, strip (strip s) = strip s) →
  (∀ s, lower s = "" → s = "") →
  let bases := load_bases strip lines in
  Forall (λ b, b ≠ "" ∧ startswith b "#" = false) bases ∧
  build_domains strip lower bases tlds false = lower <$> bases ∧
  length (build_domains strip lower bases tlds true)
  = (length bases * length tlds)%nat.
Proof.
  intros Hstrip Hlower bases.
  assert (Forall (λ b, b ≠ "" ∧ startswith b "#" = false ∧ strip b = b) bases)
    as Hbases.
  { apply Forall_forall. intros b Hb. unfold bases, load_bases in Hb.
    apply list_elem_of_filter in Hb as [[Hne Hcomment] Hb].
    apply list_elem_of_fmap in Hb as (line & -> & _).
    split_and!; [by apply nonempty_true|done|apply Hstrip]. }
  clearbody bases. split_and!.
  - eapply Forall_impl; [exact Hbases|]. naive_solver.
  - unfold build_domains. simpl.
    induction Hbases as [|b bases (Hne & _ & Hb) _ IH]; [done|].
    rewrite filter_cons, decide_True.
    + rewrite !fmap_cons, Hb. f_equal. apply IH.
    + apply nonempty_true. by rewrite Hb.
  - unfold build_domains. simpl.
    induction Hbases as [|b bases (Hne & _ & Hb) _ IH]; [done|].
    rewrite bind_cons, length_app, IH.
    assert (nonempty (lower (strip b)) = true) as ->.
    { apply nonempty_true. intros H%Hlower. congruence. }
    simpl. by rewrite length_fmap.
Qed.

End Inputs.

Lemma loaded_bases_all_build_witness :
  let bases := load_bases id ["# names"; "example"; ""; "sample"] in
  Forall (λ b, b ≠ "" ∧ startswith b "#" = false) bases ∧
  build_domains id id bases ["com"; "net"] false = id <$> bases ∧
  length (build_domains id id bases ["com"; "net"] true)
  = (length bases * length ["com"; "net"])%nat.
Proof.
  apply (loaded_bases_all_build id id ["# names"; "example"; ""; "sample"]
           ["com"; "net"]); [reflexivity|intros s H; exact H].
Defined.

(** X17. [main] stops with [SystemExit] before anything is queried when
    the bases file has only blank and comment lines, or when TLDs are
    wanted and no row of the TLD file has a non-blank [tld] cell. *)
Theorem main_exits_without_inputs (strip lower : string → string)
    (lines : list string) (rows : list csv_row) (no_tlds : bool)
    (batch_size : Z) (idle_timeout : positive) (existing : gset string)
    (out : option (list row)) (sessions : list (option (list arrival))) :
  Forall (λ line, strip line = "" ∨ startswith (strip line) "#" = true) lines
  ∨ (no_tlds = false ∧
     Forall (λ r, lower (strip (cell_or_empty r "tld")) = "") rows) →
  main strip lower (load_bases strip lines) (load_tlds strip lower rows) no_tlds
       batch_size idle_timeout existing out sessions
  = MainExit [] existing out (Raised SystemExit).
Proof.
  intros H. unfold main.
  destruct (load_bases strip lines) as [|b bases] eqn:Hbases; [done|].
  destruct H as [H|[-> H]].
  - assert (b ∈ load_bases strip lines) as Hb by (rewrite Hbases; by left).
    apply list_elem_of_filter in Hb as [[Hne Hcomment] Hb].
    apply list_elem_of_fmap in Hb as (line & -> & Hline).
    rewrite Forall_forall in H. destruct (H line Hline) as [He|Hc].
    + apply nonempty_true in Hne. done.
    + congruence.
  - assert (load_tlds strip lower rows = []) as ->; [|done].
    unfold load_tlds. induction H as [|r rows Hr _ IH]; [done|].
    rewrite fmap_cons, filter_cons, decide_False; [done|].
    rewrite Hr. by intros ?%nonempty_true.
Qed.

Lemma main_exits_without_inputs_witness :
  main id id (load_bases id ["example"])
       (load_tlds id id [[("tld", Some "")]; [("name", Some "com")]]) false
       50 5 ∅ None []
  = MainExit [] ∅ None (Raised SystemExit).
Proof.
  apply (main_exits_without_inputs id id ["example"]
           [[("tld", Some "")]; [("name", Some "com")]] false 50 5 ∅ None []).
  right. split; [reflexivity|]. by repeat constructor.
Defined.

(** X18. Resuming from the output file: when every domain that the
    input expands to is, stripped and lower-cased, the [domain] cell of
    some row of the file, [main] queries nothing and leaves the file and
    the resume-set as they are. *)
Theorem resume_from_file (strip lower : string → string)
    (bases tlds : list string) (use_tlds : bool) (rows : list csv_row)
    (batch_size : Z) (idle_timeout : positive) (out : option (list row))
    (sessions : list (option (list arrival))) :
  (∀ d, d ∈ build_domains strip lower bases tlds use_tlds →
        d ≠ "" ∧ ∃ r, r ∈ rows ∧ lower (strip (cell_or_empty r "domain")) = d) →
  let existing := load_existing_domains strip lower (Some rows) in
  main_loop strip lower bases tlds use_tlds batch_size idle_timeout existing out
            sessions
  = MainExit [] existing out Normal.
Proof.
  intros H existing. apply main_loop_resume.
  intros d Hd%elem_of_list_to_set. destruct (H d Hd) as (Hne & r & Hr & Hcell).
  unfold existing, load_existing_domains.
  apply elem_of_list_to_set, list_elem_of_filter. split.
  - by apply nonempty_true.
  - apply list_elem_of_fmap. by exists r.
Qed.

Lemma resume_from_file_witness :
  let rows := [[("domain", Some "example.com"); ("available", Some "True")];
               [("domain", Some "example.net"); ("available", Some "False")]] in
  let existing := load_existing_domains id id (Some rows) in
  main_loop id id ["example"] ["com"; "net"] true 50 5 existing (Some [header]) []
  = MainExit [] existing (Some [header]) Normal.
Proof.
  intros rows.
  apply (resume_from_file id id ["example"] ["com"; "net"] true rows 50 5
           (Some [header]) []).
  intros d Hd. vm_compute in Hd.
  apply elem_of_cons in Hd as [->|Hd].
  { split; [done|]. eexists. split; [by left|reflexivity]. }
  apply elem_of_cons in Hd as [->|Hd].
  { split; [done|]. eexists. split; [right; by left|reflexivity]. }
  by apply elem_of_nil in Hd.
Defined.

(** ** Failures (lines 121-125, 223-231) *)

(** X19. A close frame that comes in while keys are pending ends the run
    with [ConnectionClosed]: nothing is returned, the store built so far
    included, and the groups that follow are never sent. *)
Theorem close_frame_ends_run (idle_timeout : positive)
    (batch : list string) (more : list (list string)) (c : N) (results : dict)
    (now : N) (a : arrival) (rest : list arrival) (outbox : list json) :
  batch ≠ [] →
  closed_by now (a :: rest) = false →
  in_time idle_timeout now a = true →
  what a = Close →
  let r := run_batches idle_timeout (batch :: more) c results now (a :: rest) outbox in
  returned r = Raise ConnectionClosed ∧
  sent r = outbox ++ [payload (format_06d c) batch] ∧
  left_pending r = [] ∧
  unread r = rest.
Proof.
  intros Hne Hopen Htime Hwhat. unfold returned. cbn [run_batches].
  unfold send. rewrite Hopen. cbn [recv_loop].
  destruct (decide (list_to_set batch = (∅ : gset string))) as [He|_].
  { by apply list_to_set_nonempty in He. }
  rewrite Htime, Hwhat. done.
Qed.

Lemma close_frame_ends_run_witness :
  let r := run_batches 5 [["a.com"]; ["b.com"]] 1 [] 0 [Arrival 2 Close] [] in
  returned r = Raise ConnectionClosed ∧
  sent r = [] ++ [payload (format_06d 1) ["a.com"]] ∧
  left_pending r = [] ∧
  unread r = [].
Proof.
  apply (close_frame_ends_run 5 ["a.com"] [["b.com"]] 1 [] 0 (Arrival 2 Close) [] []);
    try reflexivity; discriminate.
Defined.

(** X20. As long as every store that comes back has text keys, no
    failure of a run is swallowed by [main]: a call of [query_domains]
    that raises is the last call, no later base being queried, and [main]
    ends with its exception. *)
Theorem failed_run_stops_main (strip lower : string → string)
    (bases tlds : list string) (use_tlds : bool)
    (batch_size : Z) (idle_timeout : positive) (existing : gset string)
    (out : option (list row)) (sessions : list (option (list arrival)))
    (i : nat) (r : run) (e : exn) :
  let x := main_loop strip lower bases tlds use_tlds batch_size idle_timeout
                     existing out sessions in
  Forall text_keyed (runs x) →
  runs x !! i = Some r →
  ended r = Raised e →
  main_ended x = Raised e ∧ length (runs x) = S i.
Proof.
  simpl. intros _. revert existing out sessions i.
  induction bases as [|base more IH]; intros existing out sessions i; [done|].
  cbn [main_loop].
  destruct (build_domains strip lower [base] tlds use_tlds) as [|d ds]; [apply IH|].
  destruct (decide (list_to_set (d :: ds) ⊆ existing)) as [_|_]; [apply IH|].
  set (r0 := query_domains (filter (λ d, d ∉ existing) (d :: ds)) batch_size
               idle_timeout (mjoin (head sessions))).
  destruct (ended r0) as [|e0] eqn:Hr0; simpl.
  2:{ destruct i as [|i]; simpl; [|done]. intros [= <-] He.
      rewrite Hr0 in He. by injection He as ->. }
  destruct (append_csv (final_results r0) out) as [file [|e1]]; simpl.
  2:{ destruct i as [|i]; simpl; [|done]. intros [= <-] He. congruence. }
  destruct i as [|i]; simpl.
  - intros [= <-] He. congruence.
  - intros Hi He. destruct (IH _ _ _ i Hi He) as [-> ->]. done.
Qed.

Lemma failed_run_stops_main_witness :
  let sessions := [Some [Arrival 1 Close]; Some []] in
  let x := main_loop id id ["example.com"; "sample.com"] [] false 50 5 ∅ None sessions in
  main_ended x = Raised ConnectionClosed ∧ length (runs x) = 1%nat.
Proof.
  intros sessions.
  apply (failed_run_stops_main id id ["example.com"; "sample.com"] [] false 50 5 ∅
           None sessions 0
           (query_domains ["example.com"] 50 5 (Some [Arrival 1 Close]))
           ConnectionClosed); [|reflexivity..].
  repeat constructor; discriminate.
Defined.

